(** * clone_or_update_all_org_github_repos.py

    A shallow embedding of the GitHub organisation synchroniser: the
    paginated lister [get_repositories], the per-repository coroutine
    [sync_repository] guarded by an [asyncio.Semaphore], and the driver
    [sync_all_repositories] that gathers the coroutines and prints the
    summary.

    The event loop is modelled as an interleaving of atomic steps: the
    driver and every coroutine own a control point, a schedule picks who
    moves next, and the outside world (HTTP endpoint, file system, the
    [git] child processes, the random generator) is a record of oracles.

    Conventions of the model:
    - a schedule is any list of choices; a choice that cannot move (a
      coroutine waiting for a token or for its child, the driver waiting
      in [gather]) is skipped, so the states of all schedules are the
      states of all interleavings, and those of [asyncio]'s cooperative
      scheduler are among them;
    - [asyncio.Semaphore] is a counter of free tokens: acquiring needs a
      positive counter and decrements it, leaving the [async with] block
      increments it (the order in which waiters are served is left to
      the schedule);
    - [asyncio.gather] hands the first exception raised by a coroutine
      to the driver and otherwise returns when all coroutines are done;
    - [sys.exit(1)] ends the process: nothing moves afterwards;
    - the values of a record, the decoded standard error and the
      messages of exceptions are strings; [Path.exists()] answers with a
      boolean. *)

From stdpp Require Import gmap strings list pretty.

(** * Values of the program *)

(** A repository record as decoded from the JSON array: a Python [dict]
    from keys to (string) values.  A key may be absent. *)
Abbreviation Repo := (gmap string string).

(** The exceptions that can travel through the program. *)
Inductive exn :=
| RequestException (msg : string)      (* raised by [requests.get] *)
| HTTPError (msg : string)             (* raised by [raise_for_status] *)
| JSONDecodeError (msg : string)       (* raised by [response.json] *)
| KeyError (key : string)              (* [repo['name']], [repo['ssh_url']] *)
| ValueError (msg : string)            (* [Semaphore] with a negative value *)
| OSError (msg : string).              (* raised while spawning or awaiting [git] *)

(** [str(e)], as interpolated by the f-strings: a [KeyError] prints the
    [repr] of its key, the others print their message. *)
Definition str (e : exn) : string :=
  match e with
  | RequestException m | HTTPError m | JSONDecodeError m
  | ValueError m | OSError m => m
  | KeyError k => "'" +:+ k +:+ "'"
  end.

(** Result of a computation that may raise. *)
Inductive result (A : Type) :=
| Returned (a : A)
| Raised (e : exn).
Arguments Returned {A} a.
Arguments Raised {A} e.

(** Log records written through [logger]. *)
Inductive level := INFO | ERROR.
Abbreviation log_record := (level * string)%type.

(** * The outside world *)

Inductive json_body :=
| NotJson (msg : string)
| JsonArray (items : list Repo).

Inductive http_reply :=
| ConnectionFailed (msg : string)
| Reply (status_code : nat) (reason : string) (body : json_body).

(** The two external commands, each with its working directory. *)
Inductive git_cmd :=
| GitPull (cwd : string)
| GitClone (ssh_url : string) (cwd : string).

(** What happens inside one [try] block around the child process:
    [communicate] returns with a return code and the decoded standard
    error, or some [Exception] is raised on the way, or the child never
    finishes. *)
Inductive proc_result :=
| Exited (returncode : Z) (stderr : string)
| Failed (e : exn)
| Hangs.

Record World := {
  (** [requests.get(url, headers, params={'page': p, 'per_page': 100})] *)
  http_get : string -> list (string * string) -> nat -> http_reply;
  (** [random] module: [randbelow n] is the draw used for bound [n] *)
  randbelow : nat -> nat;
  (** [Path.cwd()] *)
  getcwd : string;
  (** [Path.exists()] as observed by the i-th coroutine *)
  path_exists : nat -> string -> bool;
  (** outcome of the child process started by the i-th coroutine *)
  git : nat -> git_cmd -> proc_result
}.

(** * [GitHubRepoSync.__init__] *)

Record GitHubRepoSync := {
  token : string;
  org_name : string;
  base_path : string;
  headers : list (string * string);
  api_base : string;
  (** initial value of [self.semaphore]; [self.errors] starts empty *)
  semaphore : nat
}.

(** [asyncio.Semaphore(value)]: a negative value raises [ValueError]. *)
Definition Semaphore (value : Z) : result nat :=
  if decide (value < 0)%Z
  then Raised (ValueError "Semaphore initial value must be >= 0")
  else Returned (Z.to_nat value).

(** [Path(base_path) if base_path else Path.cwd()]: [None] and the empty
    string are both falsy. *)
Definition base_path_of (w : World) (arg : option string) : string :=
  match arg with
  | Some p => if decide (p = EmptyString) then getcwd w else p
  | None => getcwd w
  end.

Definition __init__ (w : World) (token org_name : string)
    (base_path : option string) (max_concurrent : Z) : result GitHubRepoSync :=
  match Semaphore max_concurrent with
  | Raised e => Raised e
  | Returned sem =>
      Returned {| token := token;
                  org_name := org_name;
                  base_path := base_path_of w base_path;
                  headers := [("Authorization", "token " +:+ token);
                              ("Accept", "application/vnd.github.v3+json")];
                  api_base := "https://api.github.com";
                  semaphore := sem |}
  end.

(** * The lister: [get_repositories] *)

Section Lister.
Context (w : World) (self : GitHubRepoSync).

Definition repos_url : string :=
  api_base self +:+ "/orgs/" +:+ org_name self +:+ "/repos".

(** The URL of the request for [page], as [requests] builds it from
    [params]. *)
Definition request_url (page : nat) : string :=
  repos_url +:+ "?page=" +:+ pretty page +:+ "&per_page=100".

(** [response.raise_for_status()]: 4xx and 5xx raise. *)
Definition raise_for_status (page status_code : nat) (reason : string)
    : option exn :=
  if decide (400 <= status_code < 500) then
    Some (HTTPError (pretty status_code +:+ " Client Error: " +:+ reason
                     +:+ " for url: " +:+ request_url page))
  else if decide (500 <= status_code < 600) then
    Some (HTTPError (pretty status_code +:+ " Server Error: " +:+ reason
                     +:+ " for url: " +:+ request_url page))
  else None.

(** One turn of the [while True] loop. *)
Inductive turn :=
| Continue (page : nat) (repos : list Repo)
| Break (repos : list Repo)
| Throw (e : exn).

Definition get_repositories_turn (page : nat) (repos : list Repo) : turn :=
  match http_get w repos_url (headers self) page with
  | ConnectionFailed msg => Throw (RequestException msg)
  | Reply status_code reason body =>
      match raise_for_status page status_code reason with
      | Some e => Throw e
      | None =>
          match body with
          | NotJson msg => Throw (JSONDecodeError msg)
          | JsonArray [] => Break repos
          | JsonArray page_repos => Continue (S page) (repos ++ page_repos)
          end
      end
  end.

(** The loop, with fuel bounding the number of turns: [None] when the
    fuel runs out before the loop ends. *)
Fixpoint get_repositories_loop (fuel page : nat) (repos : list Repo)
    : option (result (list Repo)) :=
  match fuel with
  | 0 => None
  | S fuel' =>
      match get_repositories_turn page repos with
      | Throw e => Some (Raised e)
      | Break repos' => Some (Returned repos')
      | Continue page' repos' => get_repositories_loop fuel' page' repos'
      end
  end.

Definition get_repositories (fuel : nat) : option (result (list Repo)) :=
  get_repositories_loop fuel 1 [].
End Lister.

(** * [random.shuffle]

    [for i in reversed(range(1, len(x))): j = randbelow(i + 1);
     x[i], x[j] = x[j], x[i]] *)

Definition swap {A} (x : list A) (i j : nat) : list A :=
  match x !! i, x !! j with
  | Some xi, Some xj => <[j:=xi]> (<[i:=xj]> x)
  | _, _ => x
  end.

Fixpoint shuffle_down {A} (w : World) (i : nat) (x : list A) : list A :=
  match i with
  | 0 => x
  | S i' => shuffle_down w i' (swap x i (randbelow w (S i) `mod` S i))
  end.

Definition shuffle {A} (w : World) (x : list A) : list A :=
  shuffle_down w (length x - 1) x.

(** * The coroutines and the event loop *)

Inductive outcome :=
| Succeeded
| Logged (error_msg : string).

(** Control points of one [sync_repository(repo)] coroutine. *)
Inductive coroutine :=
| Pending (repo : Repo)
    (* created by the list comprehension; at [async with self.semaphore] *)
| Entered (repo : Repo)
    (* token held; about to read [repo['name']] and [repo['ssh_url']] *)
| AtCheck (repo : Repo) (repo_name ssh_url : string)
    (* token held; about to evaluate [repo_path.exists()] *)
| Awaiting (repo : Repo) (repo_name : string) (cmd : git_cmd)
    (* token held; inside the [try], child process running *)
| Finished (repo : Repo) (repo_name : string) (cmd : git_cmd) (o : outcome)
    (* left the [async with] normally *)
| Crashed (repo : Repo) (e : exn).
    (* left the [async with] with an exception *)

(** Control points of [sync_all_repositories] (and of the process). *)
Inductive driver :=
| Listing (page : nat) (repos : list Repo)   (* in [get_repositories] *)
| Gathering                                  (* at [await asyncio.gather] *)
| Terminated (status : Z).                   (* the process has exited *)

(** Observable interactions with the outside world and the token pool. *)
Inductive event :=
| EvGet (page : nat)
| EvAcquire (i : nat)
| EvRelease (i : nat)
| EvExists (i : nat) (path : string) (b : bool)
| EvSpawn (i : nat) (cmd : git_cmd)
| EvReap (i : nat) (r : proc_result).

Record State := {
  main : driver;
  sem_value : nat;              (* free tokens of [self.semaphore] *)
  tasks : list coroutine;       (* the coroutines handed to [gather] *)
  gather_exc : option exn;      (* first exception raised by a coroutine *)
  errors : list string;         (* [self.errors] *)
  log : list log_record;        (* everything written through [logger] *)
  trace : list event            (* chronological *)
}.

#[global] Instance exn_eq_dec : EqDecision exn.
Proof. solve_decision. Defined.
#[global] Instance git_cmd_eq_dec : EqDecision git_cmd.
Proof. solve_decision. Defined.
#[global] Instance proc_result_eq_dec : EqDecision proc_result.
Proof. solve_decision. Defined.
#[global] Instance event_eq_dec : EqDecision event.
Proof. solve_decision. Defined.
#[global] Instance outcome_eq_dec : EqDecision outcome.
Proof. solve_decision. Defined.
#[global] Instance level_eq_dec : EqDecision level.
Proof. solve_decision. Defined.

Definition init (self : GitHubRepoSync) : State :=
  {| main := Listing 1 []; sem_value := semaphore self; tasks := [];
     gather_exc := None; errors := []; log := []; trace := [] |}.

(** ** State updates *)

Definition with_main (d : driver) (s : State) : State :=
  {| main := d; sem_value := sem_value s; tasks := tasks s;
     gather_exc := gather_exc s; errors := errors s; log := log s;
     trace := trace s |}.

Definition with_sem (v : nat) (s : State) : State :=
  {| main := main s; sem_value := v; tasks := tasks s;
     gather_exc := gather_exc s; errors := errors s; log := log s;
     trace := trace s |}.

Definition with_tasks (ts : list coroutine) (s : State) : State :=
  {| main := main s; sem_value := sem_value s; tasks := ts;
     gather_exc := gather_exc s; errors := errors s; log := log s;
     trace := trace s |}.

Definition with_gather_exc (o : option exn) (s : State) : State :=
  {| main := main s; sem_value := sem_value s; tasks := tasks s;
     gather_exc := o; errors := errors s; log := log s;
     trace := trace s |}.

(** [self.errors.append(error_msg)] *)
Definition errors_append (error_msg : string) (s : State) : State :=
  {| main := main s; sem_value := sem_value s; tasks := tasks s;
     gather_exc := gather_exc s; errors := errors s ++ [error_msg];
     log := log s; trace := trace s |}.

Definition logger (l : level) (msg : string) (s : State) : State :=
  {| main := main s; sem_value := sem_value s; tasks := tasks s;
     gather_exc := gather_exc s; errors := errors s;
     log := log s ++ [(l, msg)]; trace := trace s |}.

Definition emit (e : event) (s : State) : State :=
  {| main := main s; sem_value := sem_value s; tasks := tasks s;
     gather_exc := gather_exc s; errors := errors s; log := log s;
     trace := trace s ++ [e] |}.

Definition set_task (i : nat) (c : coroutine) (s : State) : State :=
  with_tasks (<[i:=c]> (tasks s)) s.

(** Leaving [async with self.semaphore]: [__aexit__] releases the token. *)
Definition release (i : nat) (s : State) : State :=
  emit (EvRelease i) (with_sem (S (sem_value s)) s).

(** [for error in self.errors: logger.error(error)] *)
Definition log_errors (errs : list string) (s : State) : State :=
  foldl (fun acc error => logger ERROR error acc) s errs.

Section Run.
Context (w : World) (self : GitHubRepoSync).

(** ** [sync_repository]: one atomic step of the i-th coroutine *)

(** An exception escapes the [async with] block: the token is given back
    and the exception reaches [gather], which keeps the first one. *)
Definition crash (i : nat) (repo : Repo) (e : exn) (s : State) : State :=
  let s := release i s in
  let s := set_task i (Crashed repo e) s in
  match gather_exc s with
  | None => with_gather_exc (Some e) s
  | Some _ => s
  end.

(** The word used in the messages of each branch. *)
Definition verb (cmd : git_cmd) : string :=
  match cmd with GitPull _ => "pull" | GitClone _ _ => "clone" end.

Definition past_tense (cmd : git_cmd) : string :=
  match cmd with GitPull _ => "updated" | GitClone _ _ => "cloned" end.

Definition error_msg_of (cmd : git_cmd) (repo_name detail : string) : string :=
  "Failed to " +:+ verb cmd +:+ " " +:+ repo_name +:+ ": " +:+ detail.

(** The end of a [try] block that recorded an error. *)
Definition record_error (error_msg : string) (s : State) : State :=
  errors_append error_msg (logger ERROR error_msg s).

(** [repo_path = self.base_path / repo_name] *)
Definition repo_path_of (repo_name : string) : string :=
  base_path self +:+ "/" +:+ repo_name.

Definition sync_repository (i : nat) (s : State) : option State :=
  match main s with
  | Terminated _ => None
  | _ =>
    match tasks s !! i with
    | None => None
    | Some (Pending repo) =>
        (* async with self.semaphore: *)
        match sem_value s with
        | 0 => None
        | S v => Some (set_task i (Entered repo)
                         (emit (EvAcquire i) (with_sem v s)))
        end
    | Some (Entered repo) =>
        match repo !! "name" with
        | None => Some (crash i repo (KeyError "name") s)
        | Some repo_name =>
            match repo !! "ssh_url" with
            | None => Some (crash i repo (KeyError "ssh_url") s)
            | Some ssh_url => Some (set_task i (AtCheck repo repo_name ssh_url) s)
            end
        end
    | Some (AtCheck repo repo_name ssh_url) =>
        let repo_path := repo_path_of repo_name in
        if path_exists w i repo_path then
          let cmd := GitPull repo_path in
          Some (set_task i (Awaiting repo repo_name cmd)
                  (emit (EvSpawn i cmd)
                     (logger INFO ("Pulling latest changes for " +:+ repo_name)
                        (emit (EvExists i repo_path true) s))))
        else
          let cmd := GitClone ssh_url (base_path self) in
          Some (set_task i (Awaiting repo repo_name cmd)
                  (emit (EvSpawn i cmd)
                     (logger INFO ("Cloning " +:+ repo_name)
                        (emit (EvExists i repo_path false) s))))
    | Some (Awaiting repo repo_name cmd) =>
        match git w i cmd with
        | Hangs => None
        | Exited returncode stderr =>
            let s := emit (EvReap i (Exited returncode stderr)) s in
            if decide (returncode = 0%Z) then
              let s := logger INFO ("Successfully " +:+ past_tense cmd +:+ " "
                                    +:+ repo_name) s in
              Some (set_task i (Finished repo repo_name cmd Succeeded)
                      (release i s))
            else
              let error_msg := error_msg_of cmd repo_name stderr in
              Some (set_task i (Finished repo repo_name cmd (Logged error_msg))
                      (release i (record_error error_msg s)))
        | Failed e =>
            let s := emit (EvReap i (Failed e)) s in
            let error_msg := error_msg_of cmd repo_name (str e) in
            Some (set_task i (Finished repo repo_name cmd (Logged error_msg))
                    (release i (record_error error_msg s)))
        end
    | Some (Finished _ _ _ _) | Some (Crashed _ _) => None
    end
  end.

(** ** [sync_all_repositories]: one atomic step of the driver *)

Definition is_finished (c : coroutine) : bool :=
  match c with Finished _ _ _ _ => true | _ => false end.

(** [except Exception as e: logger.error(...); sys.exit(1)] *)
Definition handler (e : exn) (s : State) : State :=
  with_main (Terminated 1)
    (logger ERROR ("Failed to fetch repositories: " +:+ str e) s).

(** Lines 136-141, after [gather] has returned. *)
Definition summary (s : State) : State :=
  let s := match errors s with
           | [] => s
           | _ :: _ => log_errors (errors s)
                         (logger ERROR (String (Ascii.ascii_of_nat 10) "Summary of all errors:") s)
           end in
  logger INFO "Repository synchronization completed" s.

Definition sync_all_repositories (s : State) : option State :=
  match main s with
  | Listing page repos =>
      let s := emit (EvGet page) s in
      match get_repositories_turn w self page repos with
      | Continue page' repos' => Some (with_main (Listing page' repos') s)
      | Throw e => Some (handler e s)
      | Break repos =>
          let s := logger INFO ("Found " +:+ pretty (length repos)
                                +:+ " repositories in " +:+ org_name self) s in
          let repos := shuffle w repos in
          Some (with_main Gathering (with_tasks (Pending <$> repos) s))
      end
  | Gathering =>
      match gather_exc s with
      | Some e => Some (handler e s)
      | None =>
          if forallb is_finished (tasks s)
          then Some (with_main (Terminated 0) (summary s))
          else None
      end
  | Terminated _ => None
  end.

(** ** The event loop *)

Inductive choice :=
| RunMain
| RunTask (i : nat).

Definition step (c : choice) (s : State) : option State :=
  match c with
  | RunMain => sync_all_repositories s
  | RunTask i => sync_repository i s
  end.

(** A choice that cannot move is skipped. *)
Definition exec (s : State) (c : choice) : State :=
  default s (step c s).

Definition run (sched : list choice) (s : State) : State :=
  foldl exec s sched.

Definition reachable (s : State) : Prop :=
  ∃ sched, s = run sched (init self).

End Run.

(** * The process: [async_main] *)

Record Args := {
  arg_token : string;
  arg_org : string;
  arg_path : option string;
  arg_concurrent : Z
}.

(** The constructor runs outside any handler: if it raises, the process
    dies with a traceback; otherwise the event loop runs. *)
Definition async_main (w : World) (args : Args) (sched : list choice)
    : result State :=
  match __init__ w (arg_token args) (arg_org args) (arg_path args)
                 (arg_concurrent args) with
  | Raised e => Raised e
  | Returned syncer => Returned (run w syncer sched (init syncer))
  end.

(** Exit status of the process, once it has one: an uncaught exception
    gives 1. *)
Definition exit_status (r : result State) : option Z :=
  match r with
  | Raised _ => Some 1%Z
  | Returned s =>
      match main s with
      | Terminated status => Some status
      | _ => None
      end
  end.

(** * Vocabulary of the specification *)

Fixpoint count {A} (f : A -> bool) (l : list A) : nat :=
  match l with
  | [] => 0
  | x :: l' => (if f x then 1 else 0) + count f l'
  end.

(** Coroutines that are inside the [async with] block. *)
Definition holds_token (c : coroutine) : bool :=
  match c with
  | Entered _ | AtCheck _ _ _ | Awaiting _ _ _ => true
  | _ => false
  end.

(** Coroutines whose child process is running. *)
Definition is_awaiting (c : coroutine) : bool :=
  match c with Awaiting _ _ _ => true | _ => false end.

Definition is_crashed (c : coroutine) : bool :=
  match c with Crashed _ _ => true | _ => false end.

Definition is_pending (c : coroutine) : bool :=
  match c with Pending _ => true | _ => false end.

(** The work item a coroutine was created for. *)
Definition task_repo (c : coroutine) : Repo :=
  match c with
  | Pending r | Entered r | AtCheck r _ _ | Awaiting r _ _
  | Finished r _ _ _ | Crashed r _ => r
  end.

(** The entry a coroutine has put in [self.errors], if any. *)
Definition logged (c : coroutine) : option string :=
  match c with
  | Finished _ _ _ (Logged error_msg) => Some error_msg
  | _ => None
  end.

Definition event_task (e : event) : option nat :=
  match e with
  | EvGet _ => None
  | EvAcquire i | EvRelease i | EvExists i _ _ | EvSpawn i _ | EvReap i _ => Some i
  end.

(** The events of the i-th coroutine, in order. *)
Definition history (i : nat) (tr : list event) : list event :=
  filter (fun e => event_task e = Some i) tr.

Definition is_spawn (e : event) : bool :=
  match e with EvSpawn _ _ => true | _ => false end.

Definition is_reap (e : event) : bool :=
  match e with EvReap _ _ => true | _ => false end.

(** External invocations started and not yet ended, read off the trace. *)
Definition active (tr : list event) : nat :=
  count is_spawn tr - count is_reap tr.

Definition is_pull (cmd : git_cmd) : bool :=
  match cmd with GitPull _ => true | GitClone _ _ => false end.


(** A record the coroutine can work with. *)
Definition well_formed (repo : Repo) : Prop :=
  is_Some (repo !! "name") /\ is_Some (repo !! "ssh_url").

(** [sub] occurs inside [s]. *)
Definition contains (s sub : string) : Prop :=
  exists pre post, s = pre +:+ sub +:+ post.

(** The endpoint answers [page] with a success status and the JSON array
    [items]. *)
Definition serves_page (w : World) (self : GitHubRepoSync)
    (page : nat) (items : list Repo) : Prop :=
  exists status_code reason,
    raise_for_status self page status_code reason = None /\
    http_get w (repos_url self) (headers self) page
      = Reply status_code reason (JsonArray items).

(** The endpoint serves the non-empty pages [pages] from page number
    [start] on, followed by an empty page. *)
Fixpoint serves (w : World) (self : GitHubRepoSync)
    (start : nat) (pages : list (list Repo)) : Prop :=
  match pages with
  | [] => serves_page w self start []
  | items :: rest =>
      items <> [] /\ serves_page w self start items /\
      serves w self (S start) rest
  end.

(** The listing stage failed: [get_repositories] raised. *)
Definition listing_fails (w : World) (self : GitHubRepoSync) : Prop :=
  exists fuel e, get_repositories w self fuel = Some (Raised e).

Definition listing_returns (w : World) (self : GitHubRepoSync)
    (repos : list Repo) : Prop :=
  exists fuel, get_repositories w self fuel = Some (Returned repos).

Section Histories.
Context (w : World) (self : GitHubRepoSync).

(** What the i-th coroutine has done so far, as a function of its
    control point. *)
Definition expected (i : nat) (c : coroutine) : list event :=
  match c with
  | Pending _ => []
  | Entered _ | AtCheck _ _ _ => [EvAcquire i]
  | Awaiting _ repo_name cmd =>
      [EvAcquire i; EvExists i (repo_path_of self repo_name) (is_pull cmd);
       EvSpawn i cmd]
  | Finished _ repo_name cmd _ =>
      [EvAcquire i; EvExists i (repo_path_of self repo_name) (is_pull cmd);
       EvSpawn i cmd; EvReap i (git w i cmd); EvRelease i]
  | Crashed _ _ => [EvAcquire i; EvRelease i]
  end.

(** The command agrees with the record and with the existence check. *)
Definition cmd_ok (i : nat) (repo : Repo) (repo_name : string)
    (cmd : git_cmd) : Prop :=
  repo !! "name" = Some repo_name /\
  match cmd with
  | GitPull cwd =>
      cwd = repo_path_of self repo_name /\
      path_exists w i (repo_path_of self repo_name) = true
  | GitClone ssh_url cwd =>
      repo !! "ssh_url" = Some ssh_url /\ cwd = base_path self /\
      path_exists w i (repo_path_of self repo_name) = false
  end.

(** The outcome agrees with what the child process did. *)
Definition outcome_ok (i : nat) (repo_name : string) (cmd : git_cmd)
    (o : outcome) : Prop :=
  match git w i cmd with
  | Hangs => False
  | Exited returncode stderr =>
      if decide (returncode = 0%Z) then o = Succeeded
      else o = Logged (error_msg_of cmd repo_name stderr)
  | Failed e => o = Logged (error_msg_of cmd repo_name (str e))
  end.

Definition task_ok (i : nat) (c : coroutine) : Prop :=
  match c with
  | Pending _ | Entered _ => True
  | AtCheck repo repo_name ssh_url =>
      repo !! "name" = Some repo_name /\ repo !! "ssh_url" = Some ssh_url
  | Awaiting repo repo_name cmd => cmd_ok i repo repo_name cmd
  | Finished repo repo_name cmd o =>
      cmd_ok i repo repo_name cmd /\ outcome_ok i repo_name cmd o
  | Crashed repo e =>
      (e = KeyError "name" /\ repo !! "name" = None) \/
      (e = KeyError "ssh_url" /\ repo !! "ssh_url" = None)
  end.

(** Where the driver stands with respect to the listing. *)
Definition driver_ok (s : State) : Prop :=
  match main s with
  | Listing page acc =>
      tasks s = [] /\ gather_exc s = None /\ errors s = [] /\
      sem_value s = semaphore self /\
      Forall (fun e => event_task e = None) (trace s) /\
      exists turns, forall fuel,
        get_repositories_loop w self (turns + fuel) 1 []
        = get_repositories_loop w self fuel page acc
  | Gathering =>
      exists repos, listing_returns w self repos /\
                    task_repo <$> tasks s = shuffle w repos
  | Terminated status =>
      (status = 0%Z /\ gather_exc s = None /\
       forallb is_finished (tasks s) = true /\
       exists repos, listing_returns w self repos /\
                     task_repo <$> tasks s = shuffle w repos) \/
      (status = 1%Z /\ tasks s = [] /\ listing_fails w self) \/
      (status = 1%Z /\ is_Some (gather_exc s) /\
       exists repos, listing_returns w self repos /\
                     task_repo <$> tasks s = shuffle w repos)
  end.

Record Inv (s : State) : Prop := {
  inv_tokens : sem_value s + count holds_token (tasks s) = semaphore self;
  inv_active : count is_spawn (trace s)
               = count is_reap (trace s) + count is_awaiting (tasks s);
  inv_history : forall i c, tasks s !! i = Some c ->
                            history i (trace s) = expected i c;
  inv_silent : forall i, length (tasks s) <= i -> history i (trace s) = [];
  inv_task : forall i c, tasks s !! i = Some c -> task_ok i c;
  inv_errors : errors s ≡ₚ omap logged (tasks s);
  inv_exc : match gather_exc s with
            | None => count is_crashed (tasks s) = 0
            | Some e => exists i repo, tasks s !! i = Some (Crashed repo e)
            end;
  inv_driver : driver_ok s
}.
End Histories.

(** Coroutines that have left the [async with] block. *)
Definition is_settled (c : coroutine) : bool :=
  match c with Finished _ _ _ _ | Crashed _ _ => true | _ => false end.

(** File-system and process work of a coroutine, as opposed to its
    dealings with the semaphore. *)
Definition is_work (e : event) : bool :=
  match e with
  | EvExists _ _ _ | EvSpawn _ _ | EvReap _ _ => true
  | _ => false
  end.

(** The flags as [argparse] delivers them: [--path] defaults to [None],
    [--concurrent] to 10, and the integer is not checked further. *)
Definition parse_args (token org : string) (path : option string)
    (concurrent : option Z) : Args :=
  {| arg_token := token; arg_org := org; arg_path := path;
     arg_concurrent := default 10%Z concurrent |}.

(** What the summary stage writes for a given [self.errors]. *)
Definition summary_lines (errs : list string) : list log_record :=
  match errs with
  | [] => []
  | _ :: _ => (ERROR, String (Ascii.ascii_of_nat 10) "Summary of all errors:")
              :: ((fun error => (ERROR, error)) <$> errs)
  end ++ [(INFO, "Repository synchronization completed")].

(** The exception a reply makes [get_repositories] raise, if any: taken
    in the order of the loop body ([requests.get], [raise_for_status],
    [response.json]). *)
Definition reply_exn (self : GitHubRepoSync) (page : nat) (r : http_reply)
    : option exn :=
  match r with
  | ConnectionFailed msg => Some (RequestException msg)
  | Reply status_code reason body =>
      match raise_for_status self page status_code reason with
      | Some e => Some e
      | None =>
          match body with
          | NotJson msg => Some (JSONDecodeError msg)
          | JsonArray _ => None
          end
      end
  end.

(** The endpoint serves the non-empty pages [pages] from page number
    [start] on; what comes after them is left open. *)
Fixpoint serves_first (w : World) (self : GitHubRepoSync)
    (start : nat) (pages : list (list Repo)) : Prop :=
  match pages with
  | [] => True
  | items :: rest =>
      items <> [] /\ serves_page w self start items /\
      serves_first w self (S start) rest
  end.

Definition is_get (e : event) : bool :=
  match e with EvGet _ => true | _ => false end.





(** The requests made so far are pages 1 to [k]; while the listing runs
    nothing else has happened and [k] turns were not enough; afterwards
    [k] is the number of turns the loop took. *)
Definition requests_ok (w : World) (self : GitHubRepoSync) (s : State) : Prop :=
  exists k rest,
    trace s = (EvGet <$> seq 1 k) ++ rest /\
    Forall (fun e => is_get e = false) rest /\
    match main s with
    | Listing page acc =>
        page = S k /\ rest = [] /\
        get_repositories w self k = None /\
        forall fuel, get_repositories_loop w self (k + fuel) 1 []
                     = get_repositories_loop w self fuel page acc
    | _ =>
        (exists r, get_repositories w self k = Some r) /\
        get_repositories w self (k - 1) = None
    end.

(** * Sample runs *)

Module Demo.

Definition repo_of (repo_name : string) : Repo :=
  {[ "name" := repo_name;
     "ssh_url" := "git@github.com:acme/" +:+ repo_name +:+ ".git" ]}.

(** A record without the ['name'] key. *)
Definition nameless : Repo := {[ "ssh_url" := "git@github.com:acme/x.git" ]}.

Definition ok (items : list Repo) : http_reply := Reply 200 "OK" (JsonArray items).

(** Three repositories on two pages; A and C are on disk, B is not;
    pulling C fails. *)
Definition world : World :=
  {| http_get := fun _ _ page =>
       match page with
       | 1 => ok [repo_of "A"; repo_of "B"]
       | 2 => ok [repo_of "C"]
       | _ => ok []
       end;
     randbelow := fun _ => 0;
     getcwd := "/work";
     path_exists := fun _ path => negb (bool_decide (path = "/work/B"));
     git := fun _ cmd =>
       match cmd with
       | GitPull cwd => if decide (cwd = "/work/C")
                        then Exited 1 "fatal: unable to access remote"
                        else Exited 0 "Already up to date."
       | GitClone _ _ => Exited 0 "Cloning into 'B'..."
       end |}.

(** The same three repositories, one per page. *)
Definition world' : World :=
  {| http_get := fun _ _ page =>
       match page with
       | 1 => ok [repo_of "A"]
       | 2 => ok [repo_of "B"]
       | 3 => ok [repo_of "C"]
       | _ => ok []
       end;
     randbelow := randbelow world;
     getcwd := getcwd world;
     path_exists := path_exists world;
     git := git world |}.

(** The endpoint answers, but its single record has no name. *)
Definition world_nameless : World :=
  {| http_get := fun _ _ page =>
       match page with
       | 1 => ok [nameless]
       | _ => ok []
       end;
     randbelow := randbelow world;
     getcwd := getcwd world;
     path_exists := path_exists world;
     git := git world |}.

(** The endpoint refuses the token. *)
Definition world_denied : World :=
  {| http_get := fun _ _ _ => Reply 401 "Unauthorized" (NotJson "Bad credentials");
     randbelow := randbelow world;
     getcwd := getcwd world;
     path_exists := path_exists world;
     git := git world |}.

Definition syncer (k : nat) : GitHubRepoSync :=
  {| token := "t0ken"; org_name := "acme"; base_path := "/work";
     headers := [("Authorization", "token t0ken");
                 ("Accept", "application/vnd.github.v3+json")];
     api_base := "https://api.github.com";
     semaphore := k |}.

(** List (three turns), start all three coroutines as far as the tokens
    allow, and let them finish one after the other. *)
Definition sched_settled : list choice :=
  [RunMain; RunMain; RunMain;
   RunTask 0; RunTask 1; RunTask 2;
   RunTask 0; RunTask 0; RunTask 0;
   RunTask 1; RunTask 1; RunTask 1;
   RunTask 2; RunTask 2; RunTask 2; RunTask 2].

(** ... and then print the summary. *)
Definition sched : list choice := sched_settled ++ [RunMain].

(** The same run, stopped while two child processes are in flight. *)
Definition sched_midway : list choice :=
  [RunMain; RunMain; RunMain;
   RunTask 0; RunTask 1; RunTask 2;
   RunTask 0; RunTask 0; RunTask 1; RunTask 1].

(** List (two turns) and let the only coroutine take its token. *)
Definition sched_entered : list choice := [RunMain; RunMain; RunTask 0].

(** ... then let it read its record, and return to the driver. *)
Definition sched_nameless : list choice := sched_entered ++ [RunTask 0; RunMain].

(** The second page cannot be fetched: the server answers 502, with a
    body that would otherwise be a fine page. *)
Definition world_flaky : World :=
  {| http_get := fun _ _ page =>
       match page with
       | 1 => ok [repo_of "A"; repo_of "B"]
       | 2 => Reply 502 "Bad Gateway" (JsonArray [repo_of "C"])
       | _ => ok []
       end;
     randbelow := randbelow world;
     getcwd := getcwd world;
     path_exists := path_exists world;
     git := git world |}.

(** An endpoint that ignores the page number: every page is the same
    non-empty array. *)
Definition world_endless : World :=
  {| http_get := fun _ _ _ => ok [repo_of "A"];
     randbelow := randbelow world;
     getcwd := getcwd world;
     path_exists := path_exists world;
     git := git world |}.

(** An organisation without repositories. *)
Definition world_empty : World :=
  {| http_get := fun _ _ _ => ok [];
     randbelow := randbelow world;
     getcwd := getcwd world;
     path_exists := path_exists world;
     git := git world |}.


End Demo.

(** * Proof automation *)

Ltac task_move_side :=
  simpl; rewrite <- ?app_assoc; simpl; rewrite ?app_nil_r;
  try done; try (repeat constructor; done); try lia.

(** Membership in a list that is written out. *)
Ltac in_list H :=
  repeat (apply elem_of_cons in H as [H | H]);
  try (by apply elem_of_nil in H); simplify_eq.

(** * Lists: counting, updating in place *)

Lemma count_app {A} (f : A -> bool) (l k : list A) :
  count f (l ++ k) = count f l + count f k.
Proof. induction l as [|x l IH]; simpl; [done | rewrite IH; lia]. Qed.

Lemma count_insert {A} (f : A -> bool) (l : list A) (i : nat) (x y : A) :
  l !! i = Some x ->
  count f (<[i:=y]> l) + (if f x then 1 else 0)
  = count f l + (if f y then 1 else 0).
Proof.
  revert i. induction l as [|a l IH]; intros [|i] Hi; simplify_eq/=.
  - lia.
  - specialize (IH _ Hi). lia.
Qed.

Lemma count_insert_same {A} (f : A -> bool) (l : list A) (i : nat) (x y : A) :
  l !! i = Some x -> f x = f y -> count f (<[i:=y]> l) = count f l.
Proof.
  intros Hi Hf. pose proof (count_insert f l i x y Hi) as H.
  rewrite Hf in H. lia.
Qed.

Lemma count_fmap_const {A B} (f : B -> bool) (g : A -> B) (l : list A) :
  (forall a, f (g a) = false) -> count f (g <$> l) = 0.
Proof. intros H. induction l; simpl; [done | by rewrite H]. Qed.


Lemma count_le_length {A} (f : A -> bool) (l : list A) : count f l <= length l.
Proof. induction l as [|a l IH]; simpl; [lia | destruct (f a); lia]. Qed.

Lemma count_mono {A} (f g : A -> bool) (l : list A) :
  (forall a, f a = true -> g a = true) -> count f l <= count g l.
Proof.
  intros H. induction l as [|a l IH]; simpl; [lia |].
  destruct (f a) eqn:E; [rewrite (H _ E) | destruct (g a)]; lia.
Qed.

Lemma omap_insert_none {A B} (f : A -> option B) (l : list A) i x y :
  l !! i = Some x -> f x = None -> f y = None ->
  omap f (<[i:=y]> l) = omap f l.
Proof.
  revert i. induction l as [|a l IH]; intros [|i] Hi Hx Hy; simplify_eq/=.
  - by rewrite Hx, Hy.
  - by rewrite (IH i).
Qed.

Lemma omap_insert_some {A B} (f : A -> option B) (l : list A) i x y b :
  l !! i = Some x -> f x = None -> f y = Some b ->
  omap f (<[i:=y]> l) ≡ₚ omap f l ++ [b].
Proof.
  revert i. induction l as [|a l IH]; intros [|i] Hi Hx Hy; simplify_eq/=.
  - rewrite Hx, Hy. by rewrite Permutation_app_comm.
  - destruct (f a); simpl; rewrite (IH i) by done; done.
Qed.

Lemma forallb_insert {A} (f : A -> bool) (l : list A) i y :
  forallb f l = true -> f y = true -> forallb f (<[i:=y]> l) = true.
Proof.
  revert i. induction l as [|a l IH]; intros [|i] Hl Hy; simpl in *; try done.
  - apply andb_true_iff in Hl as [_ Hl]. by rewrite Hy, Hl.
  - apply andb_true_iff in Hl as [Ha Hl]. by rewrite Ha, IH.
Qed.

Lemma forallb_lookup {A} (f : A -> bool) (l : list A) i x :
  forallb f l = true -> l !! i = Some x -> f x = true.
Proof.
  revert i. induction l as [|a l IH]; intros [|i] Hl Hi; simplify_eq/=.
  - by apply andb_true_iff in Hl as [? _].
  - apply andb_true_iff in Hl as [_ Hl]. eauto.
Qed.



(** * [random.shuffle] permutes *)

Lemma swap_perm {A} (x : list A) i j : swap x i j ≡ₚ x.
Proof.
  unfold swap. destruct (x !! i) eqn:Hi; [|done].
  destruct (x !! j) eqn:Hj; [|done].
  by apply Permutation_insert_swap.
Qed.

Lemma shuffle_down_perm {A} w i (x : list A) : shuffle_down w i x ≡ₚ x.
Proof.
  revert x. induction i as [|i IH]; intros x; simpl; [done |].
  rewrite IH. apply swap_perm.
Qed.

Lemma shuffle_perm {A} w (x : list A) : shuffle w x ≡ₚ x.
Proof. apply shuffle_down_perm. Qed.

Lemma shuffle_length {A} w (x : list A) : length (shuffle w x) = length x.
Proof. by rewrite shuffle_perm. Qed.

(** * The lister *)

Section ListerFacts.
Context (w : World) (self : GitHubRepoSync).

Lemma turn_served_empty page acc :
  serves_page w self page [] -> get_repositories_turn w self page acc = Break acc.
Proof.
  intros (st & rs & Hok & Hget). unfold get_repositories_turn.
  by rewrite Hget, Hok.
Qed.

Lemma turn_served_items page acc items :
  items <> [] -> serves_page w self page items ->
  get_repositories_turn w self page acc = Continue (S page) (acc ++ items).
Proof.
  intros Hne (st & rs & Hok & Hget). unfold get_repositories_turn.
  rewrite Hget, Hok. by destruct items.
Qed.

Lemma get_repositories_loop_serves pages : forall start acc fuel,
  serves w self start pages -> length pages < fuel ->
  get_repositories_loop w self fuel start acc = Some (Returned (acc ++ concat pages)).
Proof.
  induction pages as [|items rest IH]; intros start acc fuel Hs Hf;
    destruct fuel as [|fuel]; simpl in *; try lia.
  - rewrite (turn_served_empty _ _ Hs). by rewrite app_nil_r.
  - destruct Hs as (Hne & Hp & Hrest).
    rewrite (turn_served_items _ _ _ Hne Hp).
    rewrite (IH (S start) (acc ++ items) fuel Hrest) by lia.
    by rewrite <- app_assoc.
Qed.

Lemma get_repositories_loop_more fuel : forall fuel' page acc r,
  get_repositories_loop w self fuel page acc = Some r -> fuel <= fuel' ->
  get_repositories_loop w self fuel' page acc = Some r.
Proof.
  induction fuel as [|fuel IH]; intros fuel' page acc r H Hle; [done |].
  destruct fuel' as [|fuel']; [lia |]. simpl in *.
  destruct (get_repositories_turn w self page acc); try done.
  apply IH; [done | lia].
Qed.

Lemma get_repositories_det fuel fuel' r r' :
  get_repositories w self fuel = Some r ->
  get_repositories w self fuel' = Some r' -> r = r'.
Proof.
  unfold get_repositories. intros H H'.
  destruct (Nat.le_ge_cases fuel fuel') as [Hle | Hle].
  - rewrite (get_repositories_loop_more _ _ _ _ _ H Hle) in H'. congruence.
  - rewrite (get_repositories_loop_more _ _ _ _ _ H' Hle) in H. congruence.
Qed.

Lemma listing_fails_not_returns repos :
  listing_fails w self -> listing_returns w self repos -> False.
Proof.
  intros (f & e & He) (f' & Hr).
  pose proof (get_repositories_det _ _ _ _ He Hr). done.
Qed.

End ListerFacts.

Section Invariant.
Context (w : World) (self : GitHubRepoSync).

Lemma run_snoc sched c s : run w self (sched ++ [c]) s = exec w self (run w self sched s) c.
Proof. unfold run. by rewrite foldl_app. Qed.

Lemma run_app sched sched' s :
  run w self (sched ++ sched') s = run w self sched' (run w self sched s).
Proof. unfold run. by rewrite foldl_app. Qed.

Lemma reachable_init : reachable w self (init self).
Proof. by exists []. Qed.

Lemma reachable_step s c s' :
  reachable w self s -> step w self c s = Some s' -> reachable w self s'.
Proof.
  intros [sched ->] H. exists (sched ++ [c]).
  rewrite run_snoc. unfold exec. by rewrite H.
Qed.

Lemma reachable_run s sched :
  reachable w self s -> reachable w self (run w self sched s).
Proof.
  intros [sched0 ->]. exists (sched0 ++ sched). by rewrite run_app.
Qed.

(** Induction over the runs of the event loop. *)
Lemma reachable_ind (P : State -> Prop) :
  P (init self) ->
  (forall s c s', reachable w self s -> P s -> step w self c s = Some s' -> P s') ->
  forall s, reachable w self s -> P s.
Proof.
  intros H0 Hstep s [sched ->].
  induction sched as [|c sched IH] using rev_ind; [done |].
  rewrite run_snoc. unfold exec.
  destruct (step w self c (run w self sched (init self))) eqn:E; simpl; [|done].
  eapply Hstep; [by exists sched | done | done].
Qed.

Lemma history_app i tr evs :
  history i (tr ++ evs) = history i tr ++ history i evs.
Proof. unfold history. by rewrite filter_app. Qed.

Lemma history_own i evs :
  Forall (fun e => event_task e = Some i) evs -> history i evs = evs.
Proof.
  unfold history. induction 1 as [|e evs He _ IH]; [done |].
  rewrite filter_cons_True by done. by rewrite IH.
Qed.

Lemma history_other i j evs :
  i <> j -> Forall (fun e => event_task e = Some j) evs -> history i evs = [].
Proof.
  unfold history. intros Hne. induction 1 as [|e evs He _ IH]; [done |].
  rewrite filter_cons_False by congruence. done.
Qed.

Lemma history_none i evs :
  Forall (fun e => event_task e = None) evs -> history i evs = [].
Proof.
  unfold history. induction 1 as [|e evs He _ IH]; [done |].
  rewrite filter_cons_False by congruence. done.
Qed.

Lemma Inv_init : Inv w self (init self).
Proof.
  split; simpl; try done.
  all: unfold driver_ok; simpl; repeat split; try done; by exists 0.
Qed.

(** A move of the i-th coroutine from [c] to [c'] that emits [evs]. *)
Lemma Inv_task_move s s' i c c' evs :
  Inv w self s ->
  main s = Gathering -> main s' = Gathering ->
  tasks s !! i = Some c ->
  tasks s' = <[i:=c']> (tasks s) ->
  trace s' = trace s ++ evs ->
  Forall (fun e => event_task e = Some i) evs ->
  expected w self i c' = expected w self i c ++ evs ->
  task_ok w self i c' ->
  task_repo c' = task_repo c ->
  sem_value s' + (if holds_token c' then 1 else 0)
    = sem_value s + (if holds_token c then 1 else 0) ->
  count is_spawn evs + (if is_awaiting c then 1 else 0)
    = count is_reap evs + (if is_awaiting c' then 1 else 0) ->
  logged c = None ->
  errors s' = errors s ++ option_list (logged c') ->
  is_crashed c = false ->
  (match c' with
   | Crashed _ e => gather_exc s' = Some (default e (gather_exc s))
   | _ => gather_exc s' = gather_exc s
   end) ->
  Inv w self s'.
Proof.
  intros [Htok Hact Hhist Hsil Htask Herr Hexc Hdrv]
    Hm Hm' Hi Hts Htr Hown Hexp Hok Hrepo Hsem Hext Hlc Herrs Hcr Hg.
  assert (Hlen : i < length (tasks s)) by (by eapply lookup_lt_Some).
  split.
  - rewrite Hts. pose proof (count_insert holds_token _ _ _ c' Hi). lia.
  - rewrite Hts, Htr, !count_app.
    pose proof (count_insert is_awaiting _ _ _ c' Hi). lia.
  - intros j d. rewrite Hts, Htr, history_app. intros Hj.
    destruct (decide (i = j)) as [<- | Hne].
    + rewrite list_lookup_insert_eq in Hj by done. simplify_eq.
      rewrite (Hhist _ _ Hi), (history_own _ _ Hown). by rewrite Hexp.
    + rewrite list_lookup_insert_ne in Hj by done.
      rewrite (history_other j i _ (not_eq_sym Hne) Hown).
      rewrite app_nil_r. by apply Hhist.
  - intros j. rewrite Hts, Htr, length_insert, history_app. intros Hj.
    rewrite Hsil by lia. rewrite (history_other j i); [done | lia | done].
  - intros j d. rewrite Hts. intros Hj.
    destruct (decide (i = j)) as [<- | Hne].
    + rewrite list_lookup_insert_eq in Hj by done. by simplify_eq.
    + rewrite list_lookup_insert_ne in Hj by done. by eapply Htask.
  - rewrite Hts, Herrs. destruct (logged c') as [m|] eqn:Hl; simpl.
    + rewrite (omap_insert_some logged _ _ _ _ m Hi Hlc Hl). by rewrite Herr.
    + rewrite app_nil_r, (omap_insert_none logged _ _ _ _ Hi Hlc Hl). done.
  - rewrite Hts.
    assert (Hkeep : forall e, gather_exc s = Some e ->
       exists j repo, <[i:=c']> (tasks s) !! j = Some (Crashed repo e)).
    { intros e He. rewrite He in Hexc. destruct Hexc as (j & repo & Hj).
      exists j, repo. rewrite list_lookup_insert_ne; [done |].
      intros <-. rewrite Hi in Hj. by simplify_eq. }
    destruct c'; try (rewrite Hg; destruct (gather_exc s) eqn:He;
      [by apply Hkeep
      | erewrite count_insert_same; [done | done | by rewrite Hcr]]).
    rewrite Hg. destruct (gather_exc s) eqn:He; simpl.
    + by apply Hkeep.
    + exists i, repo. by rewrite list_lookup_insert_eq.
  - unfold driver_ok in *. rewrite Hm in Hdrv. rewrite Hm'.
    destruct Hdrv as (repos & Hl & Hr). exists repos. split; [done |].
    rewrite Hts, list_fmap_insert, Hrepo.
    rewrite list_insert_id; [done |]. rewrite list_lookup_fmap, Hi. done.
Qed.

Lemma sync_repository_Inv i s s' :
  Inv w self s -> sync_repository w self i s = Some s' -> Inv w self s'.
Proof.
  intros HI. unfold sync_repository.
  destruct (main s) as [page acc | | status] eqn:Hm; [| |done].
  { pose proof (inv_driver _ _ _ HI) as Hd. unfold driver_ok in Hd.
    rewrite Hm in Hd. destruct Hd as (-> & _). by rewrite lookup_nil. }
  destruct (tasks s !! i) as [c|] eqn:Hi; [|done].
  pose proof (inv_task _ _ _ HI _ _ Hi) as Hok.
  destruct c as [repo | repo | repo repo_name ssh_url | repo repo_name cmd | |];
    [| | | |done|done].
  - (* Pending: acquire *)
    destruct (sem_value s) as [|v] eqn:Hv; [done |]. intros [= <-].
    eapply (Inv_task_move s _ i (Pending repo) (Entered repo) [EvAcquire i]);
      task_move_side.
  - (* Entered: read the two keys *)
    unfold crash; simpl.
    destruct (repo !! "name") as [repo_name|] eqn:Hn.
    + destruct (repo !! "ssh_url") as [ssh_url|] eqn:Hu.
      * intros [= <-].
        eapply (Inv_task_move s _ i (Entered repo) (AtCheck repo repo_name ssh_url) []);
          task_move_side.
      * destruct (gather_exc s) eqn:Hge; intros [= <-];
          eapply (Inv_task_move s _ i (Entered repo)
                    (Crashed repo (KeyError "ssh_url")) [EvRelease i]);
          task_move_side; try (by right); by rewrite Hge.
    + destruct (gather_exc s) eqn:Hge; intros [= <-];
        eapply (Inv_task_move s _ i (Entered repo)
                  (Crashed repo (KeyError "name")) [EvRelease i]);
        task_move_side; try (by left); by rewrite Hge.
  - (* AtCheck: the existence check picks the branch *)
    destruct Hok as [Hn Hu].
    destruct (path_exists w i (repo_path_of self repo_name)) eqn:Hex; intros [= <-].
    + eapply (Inv_task_move s _ i (AtCheck repo repo_name ssh_url)
                (Awaiting repo repo_name (GitPull (repo_path_of self repo_name)))
                [EvExists i (repo_path_of self repo_name) true;
                 EvSpawn i (GitPull (repo_path_of self repo_name))]);
        task_move_side.
    + eapply (Inv_task_move s _ i (AtCheck repo repo_name ssh_url)
                (Awaiting repo repo_name (GitClone ssh_url (base_path self)))
                [EvExists i (repo_path_of self repo_name) false;
                 EvSpawn i (GitClone ssh_url (base_path self))]);
        task_move_side.
  - (* Awaiting: the child process ends *)
    simpl in Hok.
    destruct (git w i cmd) as [returncode stderr | e |] eqn:Hg; [| |done].
    + destruct (decide (returncode = 0%Z)) as [Hz | Hz]; intros [= <-].
      * eapply (Inv_task_move s _ i (Awaiting repo repo_name cmd)
                  (Finished repo repo_name cmd Succeeded)
                  [EvReap i (Exited returncode stderr); EvRelease i]);
          task_move_side.
        -- by rewrite Hg.
        -- split; [done |]. unfold outcome_ok. rewrite Hg.
           by rewrite decide_True.
      * eapply (Inv_task_move s _ i (Awaiting repo repo_name cmd)
                  (Finished repo repo_name cmd
                     (Logged (error_msg_of cmd repo_name stderr)))
                  [EvReap i (Exited returncode stderr); EvRelease i]);
          task_move_side.
        -- by rewrite Hg.
        -- split; [done |]. unfold outcome_ok. rewrite Hg.
           by rewrite decide_False.
    + intros [= <-].
      eapply (Inv_task_move s _ i (Awaiting repo repo_name cmd)
                (Finished repo repo_name cmd
                   (Logged (error_msg_of cmd repo_name (str e))))
                [EvReap i (Failed e); EvRelease i]);
        task_move_side.
      * by rewrite Hg.
      * split; [done |]. unfold outcome_ok. by rewrite Hg.
Qed.

Lemma count_silent (f : event -> bool) evs :
  (forall e, f e = true -> is_Some (event_task e)) ->
  Forall (fun e => event_task e = None) evs -> count f evs = 0.
Proof.
  intros Hf. induction 1 as [|e evs He _ IH]; simpl; [done |].
  destruct (f e) eqn:E; [|done].
  apply Hf in E as [? E]. congruence.
Qed.

(** A move of the driver that leaves the coroutines alone. *)
Lemma Inv_main_move s s' evs :
  Inv w self s ->
  tasks s' = tasks s -> sem_value s' = sem_value s ->
  errors s' = errors s -> gather_exc s' = gather_exc s ->
  trace s' = trace s ++ evs ->
  Forall (fun e => event_task e = None) evs ->
  driver_ok w self s' ->
  Inv w self s'.
Proof.
  intros [Htok Hact Hhist Hsil Htask Herr Hexc Hdrv] Hts Hsem Herrs Hg Htr Hev Hd.
  split; rewrite ?Hts, ?Hsem, ?Herrs, ?Hg, ?Htr; try done.
  - rewrite !count_app.
    rewrite (count_silent is_spawn evs), (count_silent is_reap evs); try done.
    + lia.
    + by intros []; simpl; eauto.
    + by intros []; simpl; eauto.
  - intros i c Hi. rewrite history_app, (history_none _ _ Hev), app_nil_r. eauto.
  - intros i Hi. rewrite history_app, (history_none _ _ Hev), app_nil_r. eauto.
Qed.

Lemma get_repositories_loop_continue fuel page acc page' acc' :
  get_repositories_turn w self page acc = Continue page' acc' ->
  get_repositories_loop w self (S fuel) page acc
  = get_repositories_loop w self fuel page' acc'.
Proof. intros H. simpl. by rewrite H. Qed.

Lemma omap_logged_pending (repos : list Repo) : omap logged (Pending <$> repos) = [].
Proof. induction repos; simpl; done. Qed.

Lemma task_repo_pending (repos : list Repo) : task_repo <$> (Pending <$> repos) = repos.
Proof. induction repos as [|r l IH]; [done | by rewrite !fmap_cons, IH]. Qed.

Lemma log_errors_frame errs : forall s,
  main (log_errors errs s) = main s /\
  sem_value (log_errors errs s) = sem_value s /\
  tasks (log_errors errs s) = tasks s /\
  gather_exc (log_errors errs s) = gather_exc s /\
  errors (log_errors errs s) = errors s /\
  trace (log_errors errs s) = trace s /\
  log (log_errors errs s) = log s ++ ((fun m => (ERROR, m)) <$> errs).
Proof.
  induction errs as [|m errs IH]; intros s; simpl.
  - by rewrite app_nil_r.
  - destruct (IH (logger ERROR m s)) as (-> & -> & -> & -> & -> & -> & ->).
    simpl. by rewrite <- app_assoc.
Qed.

Lemma summary_frame s :
  main (summary s) = main s /\
  sem_value (summary s) = sem_value s /\
  tasks (summary s) = tasks s /\
  gather_exc (summary s) = gather_exc s /\
  errors (summary s) = errors s /\
  trace (summary s) = trace s.
Proof.
  unfold summary. destruct (errors s) as [|m errs] eqn:E; simpl; [by rewrite E |].
  match goal with |- context [log_errors ?l ?t] =>
    destruct (log_errors_frame l t) as (-> & -> & -> & -> & -> & -> & _) end.
  simpl. by rewrite E.
Qed.

Lemma sync_all_repositories_Inv s s' :
  Inv w self s -> sync_all_repositories w self s = Some s' -> Inv w self s'.
Proof.
  intros HI. pose proof (inv_driver _ _ _ HI) as Hd.
  unfold sync_all_repositories, driver_ok in *.
  destruct (main s) as [page acc | | status] eqn:Hm; [| |done].
  - destruct Hd as (Hts & Hg & Herr & Hsem & Htr & turns & Hloop).
    destruct (get_repositories_turn w self page acc) as [page' acc'|repos|e] eqn:Ht;
      intros [= <-].
    + apply (Inv_main_move s _ [EvGet page]); simpl; try done.
      { by repeat constructor. }
      unfold driver_ok; simpl. repeat split; try done.
      * apply Forall_app; split; [done | by repeat constructor].
      * exists (S turns). intros fuel.
        replace (S turns + fuel) with (turns + S fuel) by lia.
        rewrite Hloop. by apply get_repositories_loop_continue.
    + destruct HI as [Htok Hact Hhist Hsil Htask Herrs Hexc _].
      assert (Hnone : Forall (fun e => event_task e = None) (trace s ++ [EvGet page])).
      { apply Forall_app; split; [done | by repeat constructor]. }
      split; simpl.
      * rewrite Hsem, count_fmap_const; [lia | done].
      * rewrite (count_silent is_spawn), (count_silent is_reap); try done.
        -- by rewrite count_fmap_const.
        -- by intros []; simpl; eauto.
        -- by intros []; simpl; eauto.
      * intros i c Hi. rewrite (history_none _ _ Hnone).
        rewrite list_lookup_fmap in Hi.
        destruct (shuffle w repos !! i); by simplify_eq/=.
      * intros i _. by rewrite (history_none _ _ Hnone).
      * intros i c Hi. rewrite list_lookup_fmap in Hi.
        destruct (shuffle w repos !! i); by simplify_eq/=.
      * by rewrite Herr, omap_logged_pending.
      * rewrite Hg. by apply count_fmap_const.
      * unfold driver_ok; simpl. exists repos. split.
        -- exists (turns + 1). unfold get_repositories. rewrite Hloop. simpl.
           by rewrite Ht.
        -- apply task_repo_pending.
    + apply (Inv_main_move s _ [EvGet page]); simpl; try done.
      { by repeat constructor. }
      unfold driver_ok; simpl. right; left. repeat split; try done.
      exists (turns + 1), e. unfold get_repositories. rewrite Hloop. simpl.
      by rewrite Ht.
  - destruct (gather_exc s) as [e|] eqn:Hg.
    + intros [= <-]. apply (Inv_main_move s _ []); simpl; try done.
      { by rewrite app_nil_r. }
      unfold driver_ok; simpl. right; right. rewrite Hg. eauto.
    + destruct (forallb is_finished (tasks s)) eqn:Hall; intros [= <-].
      destruct (summary_frame s) as (Hm' & Hs' & Ht' & Hg' & He' & Htr').
      apply (Inv_main_move s _ []); simpl; rewrite ?app_nil_r; try done.
      unfold driver_ok, with_main; cbn [main gather_exc tasks].
      left. rewrite Hg', Ht'. done.
Qed.

End Invariant.

Section Facts.
Context (w : World) (self : GitHubRepoSync).

Lemma step_Inv c s s' :
  Inv w self s -> step w self c s = Some s' -> Inv w self s'.
Proof.
  destruct c as [|i]; simpl; eauto using sync_all_repositories_Inv, sync_repository_Inv.
Qed.

Lemma Inv_reachable s : reachable w self s -> Inv w self s.
Proof.
  apply reachable_ind; [apply Inv_init |].
  intros ? ? ? _. apply step_Inv.
Qed.

Lemma Inv_run sched : Inv w self (run w self sched (init self)).
Proof. apply Inv_reachable. by exists sched. Qed.

Lemma Inv_run_from s sched : Inv w self s -> Inv w self (run w self sched s).
Proof.
  revert s. induction sched as [|c sched IH]; intros s HI; [done |].
  simpl. apply IH. unfold exec.
  destruct (step w self c s) eqn:E; simpl; [by eapply step_Inv | done].
Qed.

(** ** What one step may touch *)

(** A step of the i-th coroutine rewrites slot [i] only. *)
Lemma sync_repository_slot i s s' :
  sync_repository w self i s = Some s' ->
  exists c c', tasks s !! i = Some c /\ is_settled c = false /\
               tasks s' = <[i:=c']> (tasks s) /\ main s' = main s.
Proof.
  unfold sync_repository.
  destruct (main s) eqn:Hm; [| |done];
  (destruct (tasks s !! i) as [c|] eqn:Hi; [|done]; intros H; exists c;
   destruct c; simpl in H; try done;
   repeat match type of H with
          | match ?x with _ => _ end = _ => destruct x eqn:?
          | (if ?x then _ else _) = _ => destruct x eqn:?
          end; simplify_eq; unfold crash; simpl;
   try (destruct (gather_exc s)); simpl; rewrite ?Hm; eauto).
Qed.

Lemma sync_repository_others i j s s' :
  sync_repository w self i s = Some s' -> j <> i -> tasks s' !! j = tasks s !! j.
Proof.
  intros (c & c' & _ & _ & -> & _)%sync_repository_slot Hne.
  by rewrite list_lookup_insert_ne.
Qed.

(** The driver creates the coroutines once and never touches them again. *)
Lemma sync_all_repositories_tasks s s' :
  sync_all_repositories w self s = Some s' ->
  tasks s' = tasks s \/
  exists page acc repos, main s = Listing page acc /\ main s' = Gathering /\
                         tasks s' = Pending <$> shuffle w repos.
Proof.
  unfold sync_all_repositories.
  destruct (main s) as [page acc| |] eqn:Hm; [| |done].
  - destruct (get_repositories_turn w self page acc) eqn:Ht; intros [= <-]; simpl; eauto 10.
  - destruct (gather_exc s); [intros [= <-]; by left |].
    destruct (forallb is_finished (tasks s)); intros [= <-].
    left. simpl. apply summary_frame.
Qed.

(** A coroutine that has left the [async with] block never moves again. *)
Lemma settled_step c s s' i t :
  Inv w self s -> step w self c s = Some s' ->
  tasks s !! i = Some t -> is_settled t = true -> tasks s' !! i = Some t.
Proof.
  intros HI Hstep Hi Hset. destruct c as [|j]; simpl in Hstep.
  - destruct (sync_all_repositories_tasks _ _ Hstep) as [-> | (p & a & r & Hm & _)];
      [done |].
    pose proof (inv_driver _ _ _ HI) as Hd. unfold driver_ok in Hd.
    rewrite Hm in Hd. destruct Hd as (Hnil & _). by rewrite Hnil in Hi.
  - destruct (decide (i = j)) as [-> | Hne].
    + apply sync_repository_slot in Hstep as (c & _ & Hj & Hns & _).
      rewrite Hi in Hj. simplify_eq. congruence.
    + by rewrite (sync_repository_others _ _ _ _ Hstep Hne).
Qed.

Lemma settled_run sched : forall s i t,
  Inv w self s -> tasks s !! i = Some t -> is_settled t = true ->
  tasks (run w self sched s) !! i = Some t.
Proof.
  induction sched as [|c sched IH]; intros s i t HI Hi Hset; [done |].
  change (run w self (c :: sched) s) with (run w self sched (exec w self s c)).
  unfold exec. destruct (step w self c s) as [s'|] eqn:E; simpl.
  - apply IH; [by eapply step_Inv | by eapply settled_step | done].
  - by apply IH.
Qed.

End Facts.

Section MoreFacts.
Context (w : World) (self : GitHubRepoSync).

Lemma run_cons c sched s :
  run w self (c :: sched) s = run w self sched (exec w self s c).
Proof. done. Qed.

(** Running the driver alone carries the listing to its end. *)
Lemma listing_run fuel : forall s page acc r,
  main s = Listing page acc ->
  get_repositories_loop w self fuel page acc = Some r ->
  exists n, n <= fuel /\
    match r with
    | Returned repos =>
        main (run w self (replicate n RunMain) s) = Gathering /\
        tasks (run w self (replicate n RunMain) s) = Pending <$> shuffle w repos
    | Raised e =>
        main (run w self (replicate n RunMain) s) = Terminated 1
    end.
Proof.
  induction fuel as [|fuel IH]; intros s page acc r Hm Hloop; [done |].
  simpl in Hloop.
  destruct (get_repositories_turn w self page acc) as [page' acc'|repos|e] eqn:Ht.
  - pose (s1 := with_main (Listing page' acc') (emit (EvGet page) s)).
    destruct (IH s1 page' acc' r eq_refl Hloop) as (n & Hn & H).
    exists (S n). split; [lia |].
    assert (Hs : exec w self s RunMain = s1).
    { unfold exec; simpl. unfold sync_all_repositories. by rewrite Hm, Ht. }
    simpl replicate. rewrite !run_cons, Hs. exact H.
  - simplify_eq. exists 1. split; [lia |].
    simpl replicate. rewrite !run_cons. simpl.
    unfold exec; simpl. unfold sync_all_repositories. by rewrite Hm, Ht.
  - simplify_eq. exists 1. split; [lia |].
    simpl replicate. rewrite !run_cons. simpl.
    unfold exec; simpl. unfold sync_all_repositories. by rewrite Hm, Ht.
Qed.

Lemma silent_trace tr :
  (forall i, history i tr = []) -> Forall (fun e => event_task e = None) tr.
Proof.
  intros H. apply Forall_forall. intros e He.
  destruct (event_task e) as [i|] eqn:E; [|done].
  assert (e ∈ history i tr) as Hin
    by (by apply (list_elem_of_filter (fun e => event_task e = Some i))).
  rewrite H in Hin. by apply elem_of_nil in Hin.
Qed.

Lemma no_tasks_silent s :
  Inv w self s -> tasks s = [] -> Forall (fun e => event_task e = None) (trace s).
Proof.
  intros HI Hnil. apply silent_trace. intros i.
  apply (inv_silent _ _ _ HI). rewrite Hnil. simpl. lia.
Qed.

(** With an empty pool nobody ever gets a token. *)
Lemma starved_run sched :
  semaphore self = 0 ->
  let s := run w self sched (init self) in
  sem_value s = 0 /\ forallb is_pending (tasks s) = true /\
  (forall status, main s = Terminated status -> tasks s = []).
Proof.
  intros HK. apply (reachable_ind w self (fun s =>
    sem_value s = 0 /\ forallb is_pending (tasks s) = true /\
    (forall status, main s = Terminated status -> tasks s = []))).
  - by rewrite <- HK.
  - intros s c s' Hr (Hsem & Hpend & Hterm) Hstep.
    pose proof (Inv_reachable _ _ _ Hr) as HI.
    destruct c as [|i]; simpl in Hstep.
    + pose proof (inv_driver _ _ _ HI) as Hd.
      unfold sync_all_repositories, driver_ok in *.
      destruct (main s) as [page acc| |] eqn:Hm; [| |done].
      * destruct Hd as (Hts & _).
        destruct (get_repositories_turn w self page acc); simplify_eq; simpl.
        -- by rewrite Hts.
        -- split; [done |]. split; [|done].
           induction (shuffle w repos); simpl; done.
        -- by rewrite Hts.
      * pose proof (inv_exc _ _ _ HI) as Hexc.
        destruct (gather_exc s) as [e|].
        { destruct Hexc as (i & repo & Hi).
          by pose proof (forallb_lookup _ _ _ _ Hpend Hi). }
        destruct (forallb is_finished (tasks s)) eqn:Hfin; simplify_eq.
        destruct (summary_frame s) as (_ & Hs' & Ht' & _).
        unfold with_main; cbn [sem_value tasks main].
        rewrite Hs', Ht'. split; [done |]. split; [done |].
        intros _ _. destruct (tasks s) as [|c l]; [done |].
        simpl in *. destruct c; done.
    + apply sync_repository_slot in Hstep as Hslot.
      destruct Hslot as (c & c' & Hi & Hns & _).
      pose proof (forallb_lookup _ _ _ _ Hpend Hi) as Hp.
      destruct c; try done. unfold sync_repository in Hstep.
      rewrite Hi, Hsem in Hstep. by destruct (main s).
  - by exists sched.
Qed.

(** ... and so nobody does anything. *)
Lemma starved_silent sched :
  semaphore self = 0 ->
  Forall (fun e => event_task e = None) (trace (run w self sched (init self))).
Proof.
  intros HK. destruct (starved_run sched HK) as (_ & Hpend & _).
  pose proof (Inv_run w self sched) as HI.
  set (s := run w self sched (init self)) in *. clearbody s.
  apply silent_trace. intros i.
  destruct (tasks s !! i) as [c|] eqn:Hi.
  - rewrite (inv_history _ _ _ HI _ _ Hi).
    pose proof (forallb_lookup _ _ _ _ Hpend Hi). by destruct c.
  - apply (inv_silent _ _ _ HI). by apply lookup_ge_None.
Qed.

End MoreFacts.

Section TraceFacts.
Context (w : World) (self : GitHubRepoSync).

Lemma elem_of_history i e tr :
  e ∈ history i tr <-> event_task e = Some i /\ e ∈ tr.
Proof. unfold history. apply (list_elem_of_filter (fun e => event_task e = Some i)). Qed.

(** The events of a coroutine are those its control point accounts for. *)
Lemma own_event_iff s i e :
  Inv w self s -> event_task e = Some i ->
  e ∈ trace s <-> exists c, tasks s !! i = Some c /\ e ∈ expected w self i c.
Proof.
  intros HI He. split.
  - intros Hin. assert (Hh : e ∈ history i (trace s)) by (by apply elem_of_history).
    destruct (tasks s !! i) as [c|] eqn:Hi.
    + exists c. split; [done |]. by rewrite <- (inv_history _ _ _ HI _ _ Hi).
    + rewrite (inv_silent _ _ _ HI) in Hh by (by apply lookup_ge_None).
      by apply elem_of_nil in Hh.
  - intros (c & Hi & Hin). rewrite <- (inv_history _ _ _ HI _ _ Hi) in Hin.
    by apply elem_of_history in Hin as [_ ?].
Qed.

(** Who has performed the existence check, and with what result. *)
Lemma checked_inv s i path b :
  Inv w self s -> EvExists i path b ∈ trace s ->
  exists c repo_name cmd,
    tasks s !! i = Some c /\
    (c = Awaiting (task_repo c) repo_name cmd \/
     exists o, c = Finished (task_repo c) repo_name cmd o) /\
    cmd_ok w self i (task_repo c) repo_name cmd /\
    path = repo_path_of self repo_name /\ b = is_pull cmd.
Proof.
  intros HI Hin. apply (own_event_iff s i) in Hin as (c & Hi & Hin); [|done|done].
  pose proof (inv_task _ _ _ HI _ _ Hi) as Hok.
  exists c. destruct c as [r|r|r n u|r n cmd|r n cmd o|r e]; simpl in Hin, Hok;
    in_list Hin.
  - exists n, cmd. split; [done |]. split; [by left |]. done.
  - exists n, cmd. split; [done |]. split; [right; by exists o |].
    by destruct Hok.
Qed.

Lemma spawned_inv s i cmd :
  Inv w self s -> EvSpawn i cmd ∈ trace s ->
  exists c repo_name,
    tasks s !! i = Some c /\
    (c = Awaiting (task_repo c) repo_name cmd \/
     exists o, c = Finished (task_repo c) repo_name cmd o).
Proof.
  intros HI Hin. apply (own_event_iff s i) in Hin as (c & Hi & Hin); [|done|done].
  exists c. destruct c as [r|r|r n u|r n cmd0|r n cmd0 o|r e]; simpl in Hin;
    in_list Hin.
  - exists n. split; [done |]. by left.
  - exists n. split; [done |]. right. by exists o.
Qed.

End TraceFacts.

(** * The lister returns every repository once *)



(** * The semaphore bounds the child processes *)

Lemma init_returned w token org path k syncer :
  __init__ w token org path k = Returned syncer ->
  (0 <= k)%Z /\ semaphore syncer = Z.to_nat k /\
  base_path syncer = base_path_of w path.
Proof.
  unfold __init__, Semaphore. destruct (decide (k < 0)%Z); [done |].
  intros [= <-]. simpl. repeat split; lia.
Qed.

Lemma awaiting_le_holders (l : list coroutine) :
  count is_awaiting l <= count holds_token l.
Proof. apply count_mono. by intros []. Qed.

(** C1.  Whatever the schedule, in every state the process can be in,
    the number of child processes started and not yet ended is at most
    the configured limit K ([--concurrent], 10 when the flag is absent):
    the running children are exactly the coroutines awaiting a child,
    each of them is among the token holders, free tokens plus holders
    always make K, and a coroutine awaiting its child has acquired its
    token before the child was started and has not released it. *)
Theorem concurrency_bounded (w : World) (token org : string)
    (path : option string) (concurrent : option Z)
    (sched : list choice) (s : State) :
  async_main w (parse_args token org path concurrent) sched = Returned s ->
  (Z.of_nat (active (trace s)) <= default 10 concurrent)%Z /\
  active (trace s) = count is_awaiting (tasks s) /\
  count is_awaiting (tasks s) <= count holds_token (tasks s) /\
  Z.of_nat (sem_value s + count holds_token (tasks s)) = default 10%Z concurrent /\
  (forall i repo repo_name cmd,
      tasks s !! i = Some (Awaiting repo repo_name cmd) ->
      exists path b,
        history i (trace s) = [EvAcquire i; EvExists i path b; EvSpawn i cmd]).
Proof.
  unfold async_main, parse_args; simpl.
  destruct (__init__ w token org path (default 10%Z concurrent))
    as [syncer|e] eqn:Hinit; [|done].
  intros [= <-]. apply init_returned in Hinit as (Hk & Hsem & _).
  pose proof (Inv_run w syncer sched) as HI.
  set (s := run w syncer sched (init syncer)) in *.
  pose proof (inv_tokens _ _ _ HI) as Htok.
  pose proof (inv_active _ _ _ HI) as Hact.
  pose proof (awaiting_le_holders (tasks s)) as Hle.
  assert (Ha : active (trace s) = count is_awaiting (tasks s)).
  { unfold active. lia. }
  repeat split; try lia.
  intros i repo repo_name cmd Hi.
  rewrite (inv_history _ _ _ HI _ _ Hi). simpl. eauto.
Qed.

Lemma concurrency_bounded_witness :
  async_main Demo.world (parse_args "t0ken" "acme" (Some "/work") (Some 2%Z))
    Demo.sched_midway
  = Returned (run Demo.world (Demo.syncer 2) Demo.sched_midway (init (Demo.syncer 2))) /\
  (Z.of_nat (active (trace (run Demo.world (Demo.syncer 2) Demo.sched_midway
                              (init (Demo.syncer 2))))) <= 2)%Z.
Proof.
  assert (H : async_main Demo.world
                (parse_args "t0ken" "acme" (Some "/work") (Some 2%Z))
                Demo.sched_midway
              = Returned (run Demo.world (Demo.syncer 2) Demo.sched_midway
                            (init (Demo.syncer 2)))) by reflexivity.
  split; [exact H |].
  exact (proj1 (concurrency_bounded _ _ _ _ _ _ _ H)).
Defined.

(** * The summary *)

Lemma log_errors_log errs s :
  log (log_errors errs s) = log s ++ ((fun m => (ERROR, m)) <$> errs).
Proof. apply log_errors_frame. Qed.

Lemma summary_log s : log (summary s) = log s ++ summary_lines (errors s).
Proof.
  unfold summary, summary_lines. destruct (errors s) as [|m errs]; [done |].
  simpl. rewrite log_errors_log. simpl. by rewrite <- !app_assoc.
Qed.

(** C7.  Once every coroutine has finished, the driver's next step
    writes the summary: when [self.errors] is non-empty, the heading and
    then every collected message, the k-th message in k-th place, and in
    all cases the completion line last; the process then ends with
    status 0. *)
Theorem summary_emitted (w : World) (self : GitHubRepoSync) (sched : list choice) :
  let s := run w self sched (init self) in
  main s = Gathering ->
  forallb is_finished (tasks s) = true ->
  exists s',
    sync_all_repositories w self s = Some s' /\
    main s' = Terminated 0 /\
    errors s' = errors s /\
    log s' = log s ++ summary_lines (errors s) /\
    last (log s') = Some (INFO, "Repository synchronization completed") /\
    (forall k error, errors s !! k = Some error ->
       log s' !! (length (log s) + 1 + k) = Some (ERROR, error)) /\
    (errors s <> [] ->
       log s' !! length (log s)
       = Some (ERROR, String (Ascii.ascii_of_nat 10) "Summary of all errors:")).
Proof.
  intros s Hm Hfin. pose proof (Inv_run w self sched) as HI. fold s in HI.
  clearbody s.
  assert (Hg : gather_exc s = None).
  { pose proof (inv_exc _ _ _ HI) as Hexc.
    destruct (gather_exc s) as [e|]; [|done].
    destruct Hexc as (i & repo & Hi).
    by pose proof (forallb_lookup _ _ _ _ Hfin Hi). }
  exists (with_main (Terminated 0) (summary s)).
  destruct (summary_frame s) as (_ & _ & _ & _ & He & _).
  assert (Hlog : log (with_main (Terminated 0) (summary s))
                 = log s ++ summary_lines (errors s)) by apply summary_log.
  split; [|split; [|split; [|split; [|split; [|split]]]]].
  - unfold sync_all_repositories. by rewrite Hm, Hg, Hfin.
  - done.
  - exact He.
  - exact Hlog.
  - rewrite Hlog. unfold summary_lines. rewrite app_assoc. apply last_snoc.
  - intros k error Hk. rewrite Hlog. unfold summary_lines.
    destruct (errors s) as [|m errs] eqn:E; [by rewrite lookup_nil in Hk |].
    rewrite <- Nat.add_assoc, lookup_app_r by lia.
    replace (length (log s) + (1 + k) - length (log s)) with (S k) by lia.
    apply lookup_lt_Some in Hk as Hlt.
    rewrite lookup_app_l by (rewrite length_cons, length_fmap; lia).
    rewrite lookup_cons. by rewrite list_lookup_fmap, Hk.
  - intros Hne. rewrite Hlog. unfold summary_lines.
    destruct (errors s) as [|m errs]; [done |].
    rewrite lookup_app_r by lia. by rewrite Nat.sub_diag.
Qed.

Lemma summary_emitted_witness :
  main (run Demo.world (Demo.syncer 2) Demo.sched_settled (init (Demo.syncer 2)))
    = Gathering /\
  forallb is_finished
    (tasks (run Demo.world (Demo.syncer 2) Demo.sched_settled (init (Demo.syncer 2))))
    = true /\
  exists s',
    sync_all_repositories Demo.world (Demo.syncer 2)
      (run Demo.world (Demo.syncer 2) Demo.sched_settled (init (Demo.syncer 2)))
    = Some s' /\
    main s' = Terminated 0 /\
    last (log s') = Some (INFO, "Repository synchronization completed").
Proof.
  assert (Hm : main (run Demo.world (Demo.syncer 2) Demo.sched_settled
                       (init (Demo.syncer 2))) = Gathering) by reflexivity.
  assert (Hf : forallb is_finished
                 (tasks (run Demo.world (Demo.syncer 2) Demo.sched_settled
                           (init (Demo.syncer 2)))) = true) by reflexivity.
  split; [exact Hm | split; [exact Hf |]].
  destruct (summary_emitted Demo.world (Demo.syncer 2) Demo.sched_settled Hm Hf)
    as (s' & H1 & H2 & _ & _ & H5 & _).
  exists s'. repeat split; assumption.
Defined.

(** * The concurrency flag is taken as it comes *)

Lemma stuck_run w self sched s :
  (forall c, step w self c s = None) -> run w self sched s = s.
Proof.
  intros Hstuck. induction sched as [|c sched IH]; [done |].
  rewrite run_cons. unfold exec. by rewrite Hstuck.
Qed.

Lemma forallb_pending_fmap (repos : list Repo) :
  forallb is_pending (Pending <$> repos) = true.
Proof. induction repos; simpl; done. Qed.

(** C10.  The value of [--concurrent] reaches the semaphore unchecked.
    A negative value makes the constructor raise [ValueError]: the
    process dies with status 1 before anything runs.  With the value 0
    and a listing that returns at least one repository, the run gets to
    the [gather] and stays there under every continuation: all
    coroutines are still waiting for a token, none has touched the file
    system or started a process, no step is enabled and the process has
    no exit status; indeed under every schedule whatsoever all
    coroutines stay pending, no coroutine event happens, and the process
    has no exit status once coroutines exist.  From 1 on the constructor
    returns a pool of that size. *)
Theorem concurrency_flag_unchecked (w : World) (token org : string)
    (path : option string) (k : Z) :
  arg_concurrent (parse_args token org path (Some k)) = k /\
  ((k < 0)%Z ->
     forall sched,
       async_main w (parse_args token org path (Some k)) sched
         = Raised (ValueError "Semaphore initial value must be >= 0") /\
       exit_status (async_main w (parse_args token org path (Some k)) sched)
         = Some 1%Z) /\
  (k = 0%Z ->
     exists syncer,
       __init__ w token org path k = Returned syncer /\ semaphore syncer = 0 /\
       (forall sched, exists s,
          async_main w (parse_args token org path (Some k)) sched = Returned s /\
          forallb is_pending (tasks s) = true /\
          Forall (fun e => event_task e = None) (trace s) /\
          (tasks s <> [] -> exit_status (Returned s) = None)) /\
       forall repos, listing_returns w syncer repos -> repos <> [] ->
       exists sched0, forall sched, exists s,
         async_main w (parse_args token org path (Some k)) (sched0 ++ sched)
           = Returned s /\
         main s = Gathering /\
         tasks s = Pending <$> shuffle w repos /\ tasks s <> [] /\
         Forall (fun e => event_task e = None) (trace s) /\
         exit_status (Returned s) = None /\
         forall c, step w syncer c s = None) /\
  ((1 <= k)%Z ->
     exists syncer,
       __init__ w token org path k = Returned syncer /\
       Z.of_nat (semaphore syncer) = k).
Proof.
  split; [done |]. split; [|split].
  - intros Hk sched. unfold async_main, parse_args, __init__, Semaphore; simpl.
    by rewrite decide_True.
  - intros ->. eexists. split; [reflexivity |]. split; [done |].
    set (syncer := {| token := token; org_name := org;
                      base_path := base_path_of w path;
                      headers := _; api_base := _; semaphore := Z.to_nat 0 |}).
    split.
    { intros sched. exists (run w syncer sched (init syncer)).
      destruct (starved_run w syncer sched eq_refl) as (_ & Hpend & Hterm).
      split; [done |]. split; [done |].
      split; [by apply starved_silent |].
      intros Hne. simpl.
      destruct (main (run w syncer sched (init syncer))) eqn:Hm; try done.
      by destruct Hne; eapply Hterm. }
    intros repos (fuel & Hret) Hne.
    destruct (listing_run w syncer fuel (init syncer) 1 [] _ eq_refl Hret)
      as (n & _ & Hm & Hts).
    exists (replicate n RunMain). intros sched.
    set (s0 := run w syncer (replicate n RunMain) (init syncer)) in *.
    pose proof (Inv_run w syncer (replicate n RunMain)) as HI. fold s0 in HI.
    destruct (starved_run w syncer (replicate n RunMain) eq_refl) as (Hsem & _).
    fold s0 in Hsem.
    assert (Hnil : tasks s0 <> []).
    { rewrite Hts. intros Heq. apply (f_equal length) in Heq.
      rewrite length_fmap, shuffle_length in Heq. by destruct repos. }
    assert (Hstuck : forall c, step w syncer c s0 = None).
    { intros [|i]; simpl.
      - unfold sync_all_repositories. rewrite Hm.
        pose proof (inv_exc _ _ _ HI) as Hexc.
        destruct (gather_exc s0) as [e|].
        + destruct Hexc as (i & r & Hi). rewrite Hts, list_lookup_fmap in Hi.
          destruct (shuffle w repos !! i); simplify_eq/=.
        + destruct (tasks s0) as [|c l] eqn:E; [done |].
          destruct (shuffle w repos); simplify_eq/=. done.
      - unfold sync_repository. rewrite Hm, Hts, list_lookup_fmap.
        destruct (shuffle w repos !! i); simpl; [by rewrite Hsem | done]. }
    exists s0. split.
    { unfold async_main, parse_args; simpl. f_equal.
      fold syncer. by rewrite run_app, stuck_run. }
    repeat split; try done.
    + apply silent_trace. intros i.
      destruct (tasks s0 !! i) as [c|] eqn:Hi.
      * rewrite (inv_history _ _ _ HI _ _ Hi).
        rewrite Hts, list_lookup_fmap in Hi.
        destruct (shuffle w repos !! i); by simplify_eq/=.
      * apply (inv_silent _ _ _ HI). by apply lookup_ge_None.
    + simpl. by rewrite Hm.
  - intros Hk. unfold __init__, Semaphore. rewrite decide_False by lia.
    eexists. split; [reflexivity |]. simpl. lia.
Qed.

(** * Update or fetch, never both *)

(** C4.  If the i-th coroutine has checked [path] and found [b], then
    [path] is [base_path / name] for the name of its record, [b] is what
    the file system said, and exactly one command has been started for
    it in the whole run: [git pull] in [path] when the directory
    existed, [git clone ssh_url] in [base_path] when it did not; no other
    command was ever started for that item. *)
Theorem branch_exclusive (w : World) (self : GitHubRepoSync)
    (sched : list choice) (i : nat) (path : string) (b : bool) :
  let s := run w self sched (init self) in
  EvExists i path b ∈ trace s ->
  exists c repo_name cmd,
    tasks s !! i = Some c /\
    task_repo c !! "name" = Some repo_name /\
    path = repo_path_of self repo_name /\
    b = path_exists w i path /\
    (forall cmd', EvSpawn i cmd' ∈ trace s <-> cmd' = cmd) /\
    (if b then cmd = GitPull path
     else exists ssh_url,
            task_repo c !! "ssh_url" = Some ssh_url /\
            cmd = GitClone ssh_url (base_path self)).
Proof.
  intros s Hin. pose proof (Inv_run w self sched) as HI. fold s in HI.
  clearbody s.
  destruct (checked_inv w self s i path b HI Hin)
    as (c & repo_name & cmd & Hi & Hc & (Hname & Hcmd) & -> & ->).
  exists c, repo_name, cmd. split; [done |]. split; [done |]. split; [done |].
  assert (Hsp : forall cmd', EvSpawn i cmd' ∈ trace s <-> cmd' = cmd).
  { intros cmd'. split.
    - intros (c' & n' & Hi' & Hc')%(spawned_inv w self); [|done].
      rewrite Hi in Hi'. simplify_eq.
      destruct Hc as [Hc | [o Hc]], Hc' as [Hc' | [o' Hc']]; congruence.
    - intros ->. apply (own_event_iff w self s i); [done | done |].
      exists c. split; [done |].
      destruct Hc as [-> | [o ->]]; simpl; rewrite !elem_of_cons; eauto. }
  destruct cmd as [cwd | ssh_url cwd]; simpl in *.
  - destruct Hcmd as (-> & Hex). by rewrite Hex.
  - destruct Hcmd as (Hurl & -> & Hex). rewrite Hex. eauto.
Qed.

Lemma branch_exclusive_witness :
  EvExists 0 "/work/B" false
    ∈ trace (run Demo.world (Demo.syncer 2) Demo.sched_midway (init (Demo.syncer 2))) /\
  EvExists 1 "/work/C" true
    ∈ trace (run Demo.world (Demo.syncer 2) Demo.sched_midway (init (Demo.syncer 2))) /\
  (exists cmd,
    (forall cmd', EvSpawn 0 cmd'
        ∈ trace (run Demo.world (Demo.syncer 2) Demo.sched_midway (init (Demo.syncer 2)))
        <-> cmd' = cmd) /\
    exists ssh_url, cmd = GitClone ssh_url "/work") /\
  (forall cmd', EvSpawn 1 cmd'
      ∈ trace (run Demo.world (Demo.syncer 2) Demo.sched_midway (init (Demo.syncer 2)))
      <-> cmd' = GitPull "/work/C").
Proof.
  assert (H0 : EvExists 0 "/work/B" false
    ∈ trace (run Demo.world (Demo.syncer 2) Demo.sched_midway (init (Demo.syncer 2)))).
  { apply (bool_decide_unpack _). vm_compute. exact I. }
  assert (H1 : EvExists 1 "/work/C" true
    ∈ trace (run Demo.world (Demo.syncer 2) Demo.sched_midway (init (Demo.syncer 2)))).
  { apply (bool_decide_unpack _). vm_compute. exact I. }
  split; [exact H0 | split; [exact H1 | split]].
  - destruct (branch_exclusive _ _ _ _ _ _ H0) as (c & n & cmd & _ & _ & _ & _ & Hsp & u & _ & Hu).
    exists cmd. split; [exact Hsp | by exists u].
  - destruct (branch_exclusive _ _ _ _ _ _ H1) as (c & n & cmd & _ & _ & _ & _ & Hsp & ->).
    exact Hsp.
Defined.

(** * A failed invocation stays inside its coroutine *)

Lemma append_assoc (a b c : string) : (a +:+ b) +:+ c = a +:+ (b +:+ c).
Proof.
  induction a as [|x a IH]; [done |].
  change (String x ((a +:+ b) +:+ c) = String x (a +:+ (b +:+ c))).
  by f_equal.
Qed.

Lemma append_nil_r (a : string) : a +:+ EmptyString = a.
Proof.
  induction a as [|x a IH]; [done |].
  change (String x (a +:+ EmptyString) = String x a). by f_equal.
Qed.

Lemma error_msg_contains_name cmd repo_name detail :
  contains (error_msg_of cmd repo_name detail) repo_name.
Proof.
  exists ("Failed to " +:+ verb cmd +:+ " "), (": " +:+ detail).
  unfold error_msg_of. by rewrite !append_assoc.
Qed.

Lemma error_msg_contains_detail cmd repo_name detail :
  contains (error_msg_of cmd repo_name detail) detail.
Proof.
  exists ("Failed to " +:+ verb cmd +:+ " " +:+ repo_name +:+ ": "), EmptyString.
  unfold error_msg_of. by rewrite append_nil_r, !append_assoc.
Qed.

(** Whether a coroutine can move depends on its own slot, on the driver
    being alive and on a token being free, and on nothing else. *)
Lemma sync_repository_enabled w self j s s' :
  main s' = main s -> tasks s' !! j = tasks s !! j ->
  sem_value s <= sem_value s' ->
  is_Some (sync_repository w self j s) -> is_Some (sync_repository w self j s').
Proof.
  intros Hm Ht Hsem. unfold sync_repository. rewrite Hm, Ht.
  destruct (main s); [| |done];
    (destruct (tasks s !! j) as [c|]; [|done]; destruct c; try done;
     repeat match goal with
            | |- context [match ?x with _ => _ end] => destruct x eqn:?
            end; try done; try lia; by intros [? [=]]).
Qed.

(** C5.  Let the i-th coroutine await a child process that exits with a
    non-zero status and standard error [detail], or whose invocation
    raises an exception printing as [detail].  Its next step appends
    exactly one entry to [self.errors], containing the repository name
    and [detail]; the coroutine ends normally, nothing reaches [gather],
    the driver and every other coroutine are as before and those that
    could move still can.  From then on the coroutine never moves again,
    [self.errors] holds exactly one entry per coroutine that logged a
    failure, and the outcome of every finished coroutine is the one its
    own child process dictates. *)
Theorem sync_failure_contained (w : World) (self : GitHubRepoSync)
    (sched : list choice) (i : nat) (repo : Repo) (repo_name : string)
    (cmd : git_cmd) (detail : string) :
  let s := run w self sched (init self) in
  main s = Gathering ->
  tasks s !! i = Some (Awaiting repo repo_name cmd) ->
  (exists returncode, returncode <> 0%Z /\ git w i cmd = Exited returncode detail) \/
  (exists e, git w i cmd = Failed e /\ detail = str e) ->
  exists s' error_msg,
    sync_repository w self i s = Some s' /\
    errors s' = errors s ++ [error_msg] /\
    contains error_msg repo_name /\ contains error_msg detail /\
    tasks s' = <[i := Finished repo repo_name cmd (Logged error_msg)]> (tasks s) /\
    gather_exc s' = gather_exc s /\ main s' = Gathering /\
    (forall j, j <> i ->
       tasks s' !! j = tasks s !! j /\
       (is_Some (sync_repository w self j s) ->
        is_Some (sync_repository w self j s'))) /\
    (forall sched',
       tasks (run w self sched' s') !! i
         = Some (Finished repo repo_name cmd (Logged error_msg)) /\
       errors (run w self sched' s') ≡ₚ omap logged (tasks (run w self sched' s')) /\
       forall j r n c o,
         tasks (run w self sched' s') !! j = Some (Finished r n c o) ->
         outcome_ok w j n c o).
Proof.
  intros s Hm Hi Hgit. pose proof (Inv_run w self sched) as HI. fold s in HI.
  clearbody s.
  set (error_msg := error_msg_of cmd repo_name detail).
  assert (Hstep : exists s',
    sync_repository w self i s = Some s' /\
    errors s' = errors s ++ [error_msg] /\
    tasks s' = <[i := Finished repo repo_name cmd (Logged error_msg)]> (tasks s) /\
    gather_exc s' = gather_exc s /\ main s' = Gathering /\
    sem_value s' = S (sem_value s)).
  { unfold sync_repository. rewrite Hm, Hi.
    destruct Hgit as [(rc & Hrc & ->) | (e & -> & ->)].
    - rewrite decide_False by done. eexists. split; [reflexivity |]. by simpl.
    - eexists. split; [reflexivity |]. by simpl. }
  destruct Hstep as (s' & Hstep & Herr & Hts & Hg & Hm' & Hsem).
  exists s', error_msg.
  assert (HI' : Inv w self s') by (by eapply sync_repository_Inv).
  split; [done |]. split; [done |].
  split; [apply error_msg_contains_name |].
  split; [apply error_msg_contains_detail |].
  split; [done |]. split; [done |]. split; [done |]. split.
  - intros j Hne.
    assert (Hj : tasks s' !! j = tasks s !! j).
    { rewrite Hts. by apply list_lookup_insert_ne. }
    split; [done |]. apply sync_repository_enabled; [congruence | done | lia].
  - intros sched'. pose proof (Inv_run_from w self s' sched' HI') as HI''.
    split; [|split].
    + apply settled_run; [done | | done].
      rewrite Hts. apply list_lookup_insert_eq. by eapply lookup_lt_Some.
    + apply (inv_errors _ _ _ HI'').
    + intros j r n c o Hj. by destruct (inv_task _ _ _ HI'' _ _ Hj).
Qed.

Lemma sync_failure_contained_witness :
  main (run Demo.world (Demo.syncer 2) Demo.sched_midway (init (Demo.syncer 2)))
    = Gathering /\
  tasks (run Demo.world (Demo.syncer 2) Demo.sched_midway (init (Demo.syncer 2))) !! 1
    = Some (Awaiting (Demo.repo_of "C") "C" (GitPull "/work/C")) /\
  git Demo.world 1 (GitPull "/work/C") = Exited 1 "fatal: unable to access remote" /\
  exists s' error_msg,
    sync_repository Demo.world (Demo.syncer 2) 1
      (run Demo.world (Demo.syncer 2) Demo.sched_midway (init (Demo.syncer 2)))
    = Some s' /\
    errors s'
    = errors (run Demo.world (Demo.syncer 2) Demo.sched_midway (init (Demo.syncer 2)))
      ++ [error_msg] /\
    contains error_msg "C" /\
    contains error_msg "fatal: unable to access remote".
Proof.
  assert (Hm : main (run Demo.world (Demo.syncer 2) Demo.sched_midway
                       (init (Demo.syncer 2))) = Gathering) by reflexivity.
  assert (Hi : tasks (run Demo.world (Demo.syncer 2) Demo.sched_midway
                        (init (Demo.syncer 2))) !! 1
               = Some (Awaiting (Demo.repo_of "C") "C" (GitPull "/work/C")))
    by (vm_compute; reflexivity).
  assert (Hg : git Demo.world 1 (GitPull "/work/C")
               = Exited 1 "fatal: unable to access remote") by reflexivity.
  split; [exact Hm | split; [exact Hi | split; [exact Hg |]]].
  destruct (sync_failure_contained Demo.world (Demo.syncer 2) Demo.sched_midway
              1 (Demo.repo_of "C") "C" (GitPull "/work/C")
              "fatal: unable to access remote" Hm Hi)
    as (s' & error_msg & Hstep & Herr & Hname & Hdetail & _).
  { left. exists 1%Z. split; [done | exact Hg]. }
  exists s', error_msg. repeat split; assumption.
Defined.

(** * The token is held around the work and always given back *)

Lemma app_cons_lookup {A} (l hp hq : list A) (e : A) :
  l = hp ++ e :: hq -> l !! length hp = Some e /\ hp = take (length hp) l.
Proof.
  intros ->. split.
  - by rewrite list_lookup_middle.
  - by rewrite take_app_length.
Qed.

Lemma history_split i pre e post :
  event_task e = Some i ->
  history i (pre ++ e :: post) = history i pre ++ e :: history i post.
Proof.
  intros He. unfold history. rewrite filter_app, filter_cons_True by done. done.
Qed.

(** C8.  In every state of every run: an event of file-system or process
    work of the i-th coroutine (the existence check, the start and the
    end of the child process) comes after that coroutine's acquisition
    of a token and before its release; a coroutine that has left the
    [async with] block, normally or by an exception, holds no token and
    its last act was the release; free tokens and holders add up to the
    size of the pool, so when all coroutines are done the pool is full
    again.  Whatever the child process does (exit 0, exit non-zero, an
    exception), the step that ends the wait gives the token back, and so
    does the step that raises on a record without its keys. *)
Theorem token_scoped (w : World) (self : GitHubRepoSync) (sched : list choice) :
  let s := run w self sched (init self) in
  (forall pre e post i,
      trace s = pre ++ e :: post -> is_work e = true -> event_task e = Some i ->
      EvAcquire i ∈ pre /\ EvRelease i ∉ pre) /\
  (forall i c, tasks s !! i = Some c -> is_settled c = true ->
      holds_token c = false /\
      last (history i (trace s)) = Some (EvRelease i) /\
      head (history i (trace s)) = Some (EvAcquire i)) /\
  sem_value s + count holds_token (tasks s) = semaphore self /\
  (forallb is_settled (tasks s) = true -> sem_value s = semaphore self) /\
  (forall i repo repo_name cmd,
      main s = Gathering ->
      tasks s !! i = Some (Awaiting repo repo_name cmd) ->
      git w i cmd <> Hangs ->
      exists s' o,
        sync_repository w self i s = Some s' /\
        tasks s' !! i = Some (Finished repo repo_name cmd o) /\
        sem_value s' = S (sem_value s) /\
        last (trace s') = Some (EvRelease i)) /\
  (forall i repo,
      main s = Gathering ->
      tasks s !! i = Some (Entered repo) ->
      ~ well_formed repo ->
      exists s' e,
        sync_repository w self i s = Some s' /\
        tasks s' !! i = Some (Crashed repo e) /\
        sem_value s' = S (sem_value s) /\
        last (trace s') = Some (EvRelease i)).
Proof.
  intros s. pose proof (Inv_run w self sched) as HI. fold s in HI. clearbody s.
  split; [|split; [|split; [|split; [|split]]]].
  - intros pre e post i Htr Hw He.
    assert (Hh : history i (trace s) = history i pre ++ e :: history i post).
    { rewrite Htr. by apply history_split. }
    assert (Hpre : forall x, x ∈ history i pre -> x ∈ pre).
    { intros x Hx. by apply elem_of_history in Hx as [_ ?]. }
    assert (Hrel : EvRelease i ∈ pre -> EvRelease i ∈ history i pre).
    { intros Hx. by apply elem_of_history. }
    destruct (tasks s !! i) as [c|] eqn:Hi.
    + rewrite (inv_history _ _ _ HI _ _ Hi) in Hh.
      apply app_cons_lookup in Hh as [Hk Hp].
      revert Hk Hp. generalize (length (history i pre)). intros k Hk Hp.
      destruct c; simpl in Hk, Hp;
        repeat (destruct k as [|k]; simpl in Hk, Hp; simplify_eq; try done);
        (split; [apply Hpre; rewrite Hp; rewrite !elem_of_cons; eauto
                |intros Hx%Hrel; rewrite Hp in Hx; in_list Hx]).
    + rewrite (inv_silent _ _ _ HI) in Hh by (by apply lookup_ge_None).
      by destruct (history i pre).
  - intros i c Hi Hset. rewrite (inv_history _ _ _ HI _ _ Hi).
    by destruct c.
  - apply (inv_tokens _ _ _ HI).
  - intros Hall. pose proof (inv_tokens _ _ _ HI) as Htok.
    assert (count holds_token (tasks s) = 0); [|lia].
    clear -Hall. induction (tasks s) as [|c l IH]; [done |].
    simpl in *. apply andb_true_iff in Hall as [Hc Hl].
    rewrite IH by done. by destruct c.
  - intros i repo repo_name cmd Hm Hi Hg. unfold sync_repository.
    rewrite Hm, Hi. assert (Hlt : i < length (tasks s)) by (by eapply lookup_lt_Some).
    destruct (git w i cmd) as [rc err | e |]; [| |done].
    + destruct (decide (rc = 0%Z)); eexists _, _; (split; [reflexivity |]); simpl;
        rewrite list_lookup_insert_eq by done; rewrite !last_snoc; done.
    + eexists _, _; (split; [reflexivity |]); simpl.
      rewrite list_lookup_insert_eq by done. by rewrite !last_snoc.
  - intros i repo Hm Hi Hwf. unfold sync_repository. rewrite Hm, Hi.
    assert (Hlt : i < length (tasks s)) by (by eapply lookup_lt_Some).
    unfold well_formed in Hwf.
    destruct (repo !! "name") as [n|] eqn:Hn.
    + destruct (repo !! "ssh_url") as [u|] eqn:Hu.
      * exfalso. apply Hwf. split; eauto.
      * eexists _, _. split; [reflexivity |]. unfold crash; simpl.
        destruct (gather_exc s); simpl;
          rewrite list_lookup_insert_eq by done; by rewrite last_snoc.
    + eexists _, _. split; [reflexivity |]. unfold crash; simpl.
      destruct (gather_exc s); simpl;
        rewrite list_lookup_insert_eq by done; by rewrite last_snoc.
Qed.

(** * One coroutine per repository, one outcome per coroutine *)

Lemma listed_batch w self s repos :
  Inv w self s -> listing_returns w self repos ->
  (forall page acc, main s <> Listing page acc) ->
  task_repo <$> tasks s = shuffle w repos.
Proof.
  intros HI Hret Hm. pose proof (inv_driver _ _ _ HI) as Hd.
  unfold driver_ok in Hd. destruct Hret as (fuel & Hret).
  destruct (main s) as [page acc| |status] eqn:E.
  - by destruct (Hm page acc).
  - destruct Hd as (repos' & (fuel' & Hret') & Hts).
    pose proof (get_repositories_det _ _ _ _ _ _ Hret Hret'). by simplify_eq.
  - destruct Hd as [(_ & _ & _ & repos' & (fuel' & Hret') & Hts)
                   |[(_ & _ & (fuel' & e & Hf))
                    |(_ & _ & repos' & (fuel' & Hret') & Hts)]].
    + pose proof (get_repositories_det _ _ _ _ _ _ Hret Hret'). by simplify_eq.
    + pose proof (get_repositories_det _ _ _ _ _ _ Hret Hf). done.
    + pose proof (get_repositories_det _ _ _ _ _ _ Hret Hret'). by simplify_eq.
Qed.




(** * A record without its keys *)

Lemma handler_frame e s :
  gather_exc (handler e s) = gather_exc s /\ tasks (handler e s) = tasks s /\
  errors (handler e s) = errors s /\ main (handler e s) = Terminated 1 /\
  log (handler e s) = log s ++ [(ERROR, "Failed to fetch repositories: " +:+ str e)].
Proof. done. Qed.





(** * The exit status *)



(** X5.  A failed listing is fatal and nothing is done: under every
    schedule no coroutine exists and no coroutine event happens, and
    running the driver alone ends the process with status 1. *)
Lemma listing_failure_is_fatal (w : World) (self : GitHubRepoSync) :
  listing_fails w self ->
  (forall sched,
     tasks (run w self sched (init self)) = [] /\
     Forall (fun e => event_task e = None) (trace (run w self sched (init self))) /\
     main (run w self sched (init self)) <> Terminated 0) /\
  exists n, main (run w self (replicate n RunMain) (init self)) = Terminated 1.
Proof.
  intros Hf. split.
  - intros sched. pose proof (Inv_run w self sched) as HI.
    set (s := run w self sched (init self)) in *. clearbody s.
    pose proof (inv_driver _ _ _ HI) as Hd. unfold driver_ok in Hd.
    assert (Hnil : tasks s = [] /\ main s <> Terminated 0).
    { destruct (main s) as [page acc| |status].
      - by destruct Hd as (-> & _).
      - destruct Hd as (repos & Hret & _).
        by destruct (listing_fails_not_returns w self repos).
      - destruct Hd as [(_ & _ & _ & repos & Hret & _)
                       |[(-> & Hnil & _)|(_ & _ & repos & Hret & _)]];
          try (by destruct (listing_fails_not_returns w self repos)).
        done. }
    destruct Hnil as [Hnil Hne]. split; [done |].
    split; [by apply (no_tasks_silent w self) | done].
  - destruct Hf as (fuel & e & Hf).
    destruct (listing_run w self fuel (init self) 1 [] _ eq_refl Hf) as (n & _ & H).
    by exists n.
Qed.

(** C3, at a failing input.  The endpoint answers the first page with
    one record that has no ['name'] and the second page with an empty
    array, so the listing stage succeeds; the run (default limit 10)
    nevertheless ends with status 1, the failure is reported as a
    listing failure, and nothing is recorded in [self.errors]. *)
Theorem exit_status_one_without_listing_failure :
  listing_returns Demo.world_nameless (Demo.syncer 10) [Demo.nameless] /\
  ~ listing_fails Demo.world_nameless (Demo.syncer 10) /\
  exists s,
    async_main Demo.world_nameless
      (parse_args "t0ken" "acme" (Some "/work") None) Demo.sched_nameless
    = Returned s /\
    exit_status (Returned s) = Some 1%Z /\
    log s = [(INFO, "Found 1 repositories in acme");
             (ERROR, "Failed to fetch repositories: 'name'")] /\
    errors s = [] /\
    count is_spawn (trace s) = 0.
Proof.
  assert (Hret : listing_returns Demo.world_nameless (Demo.syncer 10) [Demo.nameless]).
  { exists 2. vm_compute. reflexivity. }
  split; [exact Hret |]. split.
  - intros Hf. by apply (listing_fails_not_returns _ _ _ Hf Hret).
  - eexists. split; [reflexivity |]. vm_compute. done.
Qed.

(** * The sample runs, evaluated *)

(** Three items, two tokens: A and C are pulled, B is cloned, the pull of
    C fails; one error line in the summary, status 0, pool full again. *)
Example run_three_items :
  exists s,
    async_main Demo.world (parse_args "t0ken" "acme" (Some "/work") (Some 2%Z))
      Demo.sched = Returned s /\
    exit_status (Returned s) = Some 0%Z /\
    sem_value s = 2 /\
    errors s = ["Failed to pull C: fatal: unable to access remote"] /\
    log s = [(INFO, "Found 3 repositories in acme");
             (INFO, "Cloning B");
             (INFO, "Successfully cloned B");
             (INFO, "Pulling latest changes for C");
             (ERROR, "Failed to pull C: fatal: unable to access remote");
             (INFO, "Pulling latest changes for A");
             (INFO, "Successfully updated A");
             (ERROR, String (Ascii.ascii_of_nat 10) "Summary of all errors:");
             (ERROR, "Failed to pull C: fatal: unable to access remote");
             (INFO, "Repository synchronization completed")] /\
    trace s = [EvGet 1; EvGet 2; EvGet 3;
               EvAcquire 0; EvAcquire 1;
               EvExists 0 "/work/B" false;
               EvSpawn 0 (GitClone "git@github.com:acme/B.git" "/work");
               EvReap 0 (Exited 0 "Cloning into 'B'..."); EvRelease 0;
               EvExists 1 "/work/C" true; EvSpawn 1 (GitPull "/work/C");
               EvReap 1 (Exited 1 "fatal: unable to access remote"); EvRelease 1;
               EvAcquire 2;
               EvExists 2 "/work/A" true; EvSpawn 2 (GitPull "/work/A");
               EvReap 2 (Exited 0 "Already up to date."); EvRelease 2].
Proof. eexists. split; [reflexivity |]. vm_compute. done. Qed.

(** The same endpoint with an empty pool: the run stays at [gather]. *)
Example run_starved :
  exists s,
    async_main Demo.world (parse_args "t0ken" "acme" (Some "/work") (Some 0%Z))
      Demo.sched = Returned s /\
    exit_status (Returned s) = None /\
    main s = Gathering /\
    trace s = [EvGet 1; EvGet 2; EvGet 3] /\
    log s = [(INFO, "Found 3 repositories in acme")].
Proof. eexists. split; [reflexivity |]. vm_compute. done. Qed.

(** A negative limit: the constructor raises before anything runs. *)
Example run_negative :
  async_main Demo.world (parse_args "t0ken" "acme" (Some "/work") (Some (-1)%Z))
    Demo.sched = Raised (ValueError "Semaphore initial value must be >= 0").
Proof. reflexivity. Qed.

(** The endpoint refuses the token: status 1, nothing done. *)
Example run_denied :
  exists s,
    async_main Demo.world_denied (parse_args "t0ken" "acme" None None)
      Demo.sched = Returned s /\
    exit_status (Returned s) = Some 1%Z /\
    tasks s = [] /\
    trace s = [EvGet 1] /\
    log s = [(ERROR, "Failed to fetch repositories: 401 Client Error: Unauthorized for url: https://api.github.com/orgs/acme/repos?page=1&per_page=100")].
Proof. eexists. split; [reflexivity |]. vm_compute. done. Qed.

(** * More on the lister *)

Section ListerErrors.
Context (w : World) (self : GitHubRepoSync).

Lemma turn_raises page acc e :
  reply_exn self page (http_get w (repos_url self) (headers self) page) = Some e ->
  get_repositories_turn w self page acc = Throw e.
Proof.
  unfold reply_exn, get_repositories_turn.
  destruct (http_get w (repos_url self) (headers self) page) as [msg|st rs body].
  - by intros [= <-].
  - destruct (raise_for_status self page st rs); [by intros [= <-] |].
    destruct body; [by intros [= <-] | done].
Qed.

Lemma get_repositories_loop_raises pages : forall start acc fuel e,
  serves_first w self start pages ->
  reply_exn self (start + length pages)
    (http_get w (repos_url self) (headers self) (start + length pages)) = Some e ->
  length pages < fuel ->
  get_repositories_loop w self fuel start acc = Some (Raised e).
Proof.
  induction pages as [|items rest IH]; intros start acc fuel e Hs He Hf;
    destruct fuel as [|fuel]; simpl in *; try lia.
  - rewrite Nat.add_0_r in He. by rewrite (turn_raises _ _ _ He).
  - destruct Hs as (Hne & Hp & Hrest).
    rewrite (turn_served_items w self _ _ _ Hne Hp).
    apply IH; [done | | lia].
    by replace (S start + length rest) with (start + S (length rest)) by lia.
Qed.

(** The driver alone, turn after turn through the served pages. *)
Lemma listing_steps pages : forall start acc s,
  main s = Listing start acc ->
  serves_first w self start pages ->
  main (run w self (replicate (length pages) RunMain) s)
    = Listing (start + length pages) (acc ++ concat pages) /\
  trace (run w self (replicate (length pages) RunMain) s)
    = trace s ++ (EvGet <$> seq start (length pages)) /\
  log (run w self (replicate (length pages) RunMain) s) = log s /\
  tasks (run w self (replicate (length pages) RunMain) s) = tasks s /\
  errors (run w self (replicate (length pages) RunMain) s) = errors s.
Proof.
  induction pages as [|items rest IH]; intros start acc s Hm Hs.
  - simpl. by rewrite Nat.add_0_r, !app_nil_r.
  - destruct Hs as (Hne & Hp & Hrest). simpl replicate. rewrite run_cons.
    assert (Hstep : exec w self s RunMain
              = with_main (Listing (S start) (acc ++ items)) (emit (EvGet start) s)).
    { unfold exec; simpl. unfold sync_all_repositories.
      by rewrite Hm, (turn_served_items w self _ _ _ Hne Hp). }
    rewrite Hstep.
    destruct (IH (S start) (acc ++ items)
                (with_main (Listing (S start) (acc ++ items)) (emit (EvGet start) s))
                eq_refl Hrest) as (-> & -> & -> & -> & ->).
    simpl. rewrite <- !app_assoc. simpl.
    by replace (S (start + length rest)) with (start + S (length rest)) by lia.
Qed.

End ListerErrors.

(** X1.  If the endpoint serves some non-empty pages and the request for
    the next page fails (the connection fails, the status is 4xx or 5xx
    whatever the body, or the body is not JSON), then [get_repositories]
    raises that exception for every fuel that reaches the page and never
    returns a list: the pages already fetched are dropped.  The driver,
    run alone, has then made one request per page, has created no
    coroutine, has logged the single line ["Failed to fetch
    repositories: "] followed by the exception, and has ended the process
    with status 1. *)
Theorem get_repositories_raises (w : World) (self : GitHubRepoSync)
    (pages : list (list Repo)) (e : exn) :
  serves_first w self 1 pages ->
  reply_exn self (S (length pages))
    (http_get w (repos_url self) (headers self) (S (length pages))) = Some e ->
  (forall fuel, length pages < fuel ->
     get_repositories w self fuel = Some (Raised e)) /\
  (forall fuel repos, get_repositories w self fuel <> Some (Returned repos)) /\
  main (run w self (replicate (S (length pages)) RunMain) (init self)) = Terminated 1 /\
  tasks (run w self (replicate (S (length pages)) RunMain) (init self)) = [] /\
  log (run w self (replicate (S (length pages)) RunMain) (init self))
    = [(ERROR, "Failed to fetch repositories: " +:+ str e)] /\
  trace (run w self (replicate (S (length pages)) RunMain) (init self))
    = EvGet <$> seq 1 (S (length pages)).
Proof.
  intros Hs He.
  assert (Hraise : forall fuel, length pages < fuel ->
            get_repositories w self fuel = Some (Raised e)).
  { intros fuel Hf. unfold get_repositories.
    by apply (get_repositories_loop_raises w self pages). }
  split; [done |]. split.
  - intros fuel repos Hret.
    pose proof (Hraise (S (length pages)) (Nat.lt_succ_diag_r _)) as Hr.
    by pose proof (get_repositories_det _ _ _ _ _ _ Hret Hr).
  - assert (Hsched : replicate (S (length pages)) RunMain
              = replicate (length pages) RunMain ++ replicate 1 RunMain).
    { rewrite <- replicate_add. f_equal. lia. }
    rewrite Hsched, run_app.
    destruct (listing_steps w self pages 1 [] (init self) eq_refl Hs)
      as (Hm & Htr & Hlog & Hts & _).
    set (s := run w self (replicate (length pages) RunMain) (init self)) in *.
    assert (Hstep : run w self (replicate 1 RunMain) s
              = handler e (emit (EvGet (1 + length pages)) s)).
    { simpl replicate. rewrite run_cons. unfold exec; simpl.
      unfold sync_all_repositories. rewrite Hm.
      by rewrite (turn_raises w self _ _ _ He). }
    rewrite Hstep. split; [done |]. split; [exact Hts |]. split.
    + change (log s ++ [(ERROR, "Failed to fetch repositories: " +:+ str e)]
              = [(ERROR, "Failed to fetch repositories: " +:+ str e)]).
      by rewrite Hlog.
    + change (trace s ++ [EvGet (1 + length pages)]
              = EvGet <$> seq 1 (S (length pages))).
      by rewrite Htr, seq_S, fmap_app.
Qed.

Lemma get_repositories_raises_witness :
  serves_first Demo.world_flaky (Demo.syncer 2) 1
    [[Demo.repo_of "A"; Demo.repo_of "B"]] /\
  (forall fuel, 1 < fuel ->
     get_repositories Demo.world_flaky (Demo.syncer 2) fuel
     = Some (Raised (HTTPError
         "502 Server Error: Bad Gateway for url: https://api.github.com/orgs/acme/repos?page=2&per_page=100"))).
Proof.
  assert (Hs : serves_first Demo.world_flaky (Demo.syncer 2) 1
                 [[Demo.repo_of "A"; Demo.repo_of "B"]]).
  { simpl. repeat split; try done. by eexists 200, "OK". }
  split; [exact Hs |].
  exact (proj1 (get_repositories_raises Demo.world_flaky (Demo.syncer 2)
                  [[Demo.repo_of "A"; Demo.repo_of "B"]] _ Hs eq_refl)).
Defined.

(** X2.  If the endpoint never answers with an empty page (every page
    from 1 on is a non-empty array), [get_repositories] never returns:
    it runs out of any fuel.  Under every schedule the driver is then
    still inside the listing, no coroutine exists, nothing but requests
    has happened, and the process has no exit status. *)
Theorem get_repositories_endless (w : World) (self : GitHubRepoSync) :
  (forall page, 1 <= page ->
     exists items, items <> [] /\ serves_page w self page items) ->
  (forall fuel, get_repositories w self fuel = None) /\
  forall sched,
    (exists page acc, main (run w self sched (init self)) = Listing page acc) /\
    tasks (run w self sched (init self)) = [] /\
    errors (run w self sched (init self)) = [] /\
    Forall (fun e => is_get e = true) (trace (run w self sched (init self))) /\
    exit_status (Returned (run w self sched (init self))) = None.
Proof.
  intros Hserve.
  assert (Hloop : forall fuel page acc, 1 <= page ->
            get_repositories_loop w self fuel page acc = None).
  { induction fuel as [|fuel IH]; intros page acc Hp; [done |].
    simpl. destruct (Hserve page Hp) as (items & Hne & Hs).
    rewrite (turn_served_items w self _ _ _ Hne Hs). apply IH. lia. }
  assert (Hnone : forall fuel, get_repositories w self fuel = None).
  { intros fuel. by apply Hloop. }
  split; [done |]. intros sched.
  pose proof (Inv_run w self sched) as HI.
  set (s := run w self sched (init self)) in *. clearbody s.
  pose proof (inv_driver _ _ _ HI) as Hd. unfold driver_ok in Hd.
  assert (Hno : forall repos, ~ listing_returns w self repos).
  { intros repos (fuel & Hret). by rewrite Hnone in Hret. }
  assert (Hnf : ~ listing_fails w self).
  { intros (fuel & e & Hf). by rewrite Hnone in Hf. }
  destruct (main s) as [page acc| |status] eqn:Hm.
  - destruct Hd as (Hts & _ & Herr & _ & Htr & _).
    split; [eauto |]. split; [done |]. split; [done |]. split; [|by simpl; rewrite Hm].
    eapply Forall_impl; [exact Htr |]. by intros [].
  - destruct Hd as (repos & Hret & _). by destruct (Hno repos).
  - destruct Hd as [(_ & _ & _ & repos & Hret & _)
                   |[(_ & _ & Hf)|(_ & _ & repos & Hret & _)]];
      [by destruct (Hno repos) | done | by destruct (Hno repos)].
Qed.

Lemma get_repositories_endless_witness :
  (forall page, 1 <= page ->
     exists items, items <> [] /\
       serves_page Demo.world_endless (Demo.syncer 2) page items) /\
  (forall fuel, get_repositories Demo.world_endless (Demo.syncer 2) fuel = None).
Proof.
  assert (H : forall page, 1 <= page ->
     exists items, items <> [] /\
       serves_page Demo.world_endless (Demo.syncer 2) page items).
  { intros page _. exists [Demo.repo_of "A"]. split; [done |].
    by exists 200, "OK". }
  split; [exact H |].
  exact (proj1 (get_repositories_endless Demo.world_endless (Demo.syncer 2) H)).
Defined.

(** * The requests of a run *)

Section Requests.
Context (w : World) (self : GitHubRepoSync).

(** What a coroutine step adds to the trace is its own. *)
Lemma sync_repository_trace i s s' :
  sync_repository w self i s = Some s' ->
  exists evs, trace s' = trace s ++ evs /\
              Forall (fun e => event_task e = Some i) evs.
Proof.
  unfold sync_repository, crash.
  destruct (main s); [| |done];
  (destruct (tasks s !! i) as [c|]; [|done]; intros H;
   destruct c; simpl in H; try done;
   repeat match type of H with
          | match ?x with _ => _ end = _ => destruct x eqn:?
          | (if ?x then _ else _) = _ => destruct x eqn:?
          end; simplify_eq; simpl; try (destruct (gather_exc s)); simpl;
   rewrite <- ?app_assoc;
   first [ exists []; split; [by rewrite app_nil_r | by constructor]
         | eexists; split; [reflexivity | by repeat constructor] ]).
Qed.

Lemma turn_continue_page page acc page' acc' :
  get_repositories_turn w self page acc = Continue page' acc' -> page' = S page.
Proof.
  unfold get_repositories_turn.
  destruct (http_get w (repos_url self) (headers self) page) as [|st rs body]; [done |].
  destruct (raise_for_status self page st rs); [done |].
  destruct body as [|[|x l]]; try done. by intros [= <- _].
Qed.

Lemma get_repositories_loop_one page acc :
  get_repositories_loop w self 1 page acc
  = match get_repositories_turn w self page acc with
    | Continue _ _ => None
    | Break repos => Some (Returned repos)
    | Throw e => Some (Raised e)
    end.
Proof. simpl. by destruct (get_repositories_turn w self page acc). Qed.

Lemma requests_ok_run sched : requests_ok w self (run w self sched (init self)).
Proof.
  apply (reachable_ind w self (requests_ok w self)); [| |by exists sched].
  - exists 0, []. simpl. repeat split; done.
  - intros s c s' Hr (k & rest & Htr & Hrest & Hmain) Hstep.
    pose proof (Inv_reachable _ _ _ Hr) as HI.
    destruct c as [|i]; simpl in Hstep.
    + unfold sync_all_repositories in Hstep.
      destruct (main s) as [page acc| |] eqn:Hm; [| |done].
      * destruct Hmain as (-> & -> & Hnone & Hloop).
        rewrite app_nil_r in Htr.
        assert (Hone : get_repositories w self (S k)
                       = get_repositories_loop w self 1 (S k) acc).
        { unfold get_repositories.
          replace (S k) with (k + 1) at 1 by lia. apply Hloop. }
        rewrite get_repositories_loop_one in Hone.
        assert (Htr' : trace s ++ [EvGet (S k)] = (EvGet <$> seq 1 (S k)) ++ []).
        { by rewrite Htr, app_nil_r, seq_S, fmap_app. }
        destruct (get_repositories_turn w self (S k) acc)
          as [page' acc'|repos|e] eqn:Ht; simplify_eq.
        -- apply turn_continue_page in Ht as Hp. subst page'.
           exists (S k), []. split; [exact Htr' |]. split; [done |].
           unfold with_main; cbn [main].
           split; [done |]. split; [done |]. split; [done |].
           intros fuel. replace (S k + fuel) with (k + S fuel) by lia.
           rewrite Hloop. by rewrite (get_repositories_loop_continue _ _ _ _ _ _ _ Ht).
        -- exists (S k), []. split; [exact Htr' |]. split; [done |].
           unfold handler; unfold with_main; cbn [main].
           replace (S k - 1) with k by lia. eauto.
        -- exists (S k), []. split; [exact Htr' |]. split; [done |].
           unfold handler; unfold with_main; cbn [main].
           replace (S k - 1) with k by lia. eauto.
      * exists k, rest.
        destruct (gather_exc s); [simplify_eq; simpl; by rewrite Htr |].
        destruct (forallb is_finished (tasks s)); simplify_eq.
        destruct (summary_frame s) as (_ & _ & _ & _ & _ & Htr').
        unfold with_main; cbn [trace main]. by rewrite Htr', Htr.
    + apply sync_repository_slot in Hstep as Hslot.
      destruct Hslot as (c & c' & Hi & _ & _ & Hm').
      apply sync_repository_trace in Hstep as (evs & Htr' & Hevs).
      assert (Hnl : forall page acc, main s <> Listing page acc).
      { intros page acc Hm. pose proof (inv_driver _ _ _ HI) as Hd.
        unfold driver_ok in Hd. rewrite Hm in Hd. destruct Hd as (Hnil & _).
        by rewrite Hnil in Hi. }
      exists k, (rest ++ evs). rewrite Htr', Htr, app_assoc. split; [done |].
      split.
      * apply Forall_app. split; [done |].
        eapply Forall_impl; [exact Hevs |]. by intros [].
      * rewrite Hm'. destruct (main s) as [page acc| |]; [|done|done].
        by destruct (Hnl page acc).
Qed.

Lemma get_repositories_loop_short pages : forall start acc fuel,
  serves w self start pages -> fuel <= length pages ->
  get_repositories_loop w self fuel start acc = None.
Proof.
  induction pages as [|items rest IH]; intros start acc fuel Hs Hf;
    destruct fuel as [|fuel]; simpl in *; try done; try lia.
  destruct Hs as (Hne & Hp & Hrest).
  rewrite (turn_served_items w self _ _ _ Hne Hp). apply IH; [done | lia].
Qed.

End Requests.

(** X3.  In every state of every run the trace consists of the requests
    for pages 1, 2, ..., k, in this order and each made once, followed
    by events that are not requests: no page is asked for twice or out
    of order, and no request is made after the first coroutine event.
    Once the listing is over, k is the number of turns the loop of
    [get_repositories] took (k turns end it, k - 1 do not). *)
Theorem requests_in_order (w : World) (self : GitHubRepoSync) (sched : list choice) :
  exists k rest,
    trace (run w self sched (init self)) = (EvGet <$> seq 1 k) ++ rest /\
    Forall (fun e => is_get e = false) rest /\
    ((forall page acc, main (run w self sched (init self)) <> Listing page acc) ->
     (exists r, get_repositories w self k = Some r) /\
     get_repositories w self (k - 1) = None) /\
    (forall page acc, main (run w self sched (init self)) = Listing page acc ->
     page = S k /\ rest = []).
Proof.
  destruct (requests_ok_run w self sched) as (k & rest & Htr & Hrest & Hmain).
  exists k, rest. split; [done |]. split; [done |]. split.
  - intros Hnl. destruct (main (run w self sched (init self))) as [page acc| |];
      [by destruct (Hnl page acc) | done | done].
  - intros page acc Hm. rewrite Hm in Hmain. by destruct Hmain as (? & ? & _).
Qed.

(** X4.  If the endpoint serves P non-empty pages and then an empty one,
    every run that has got past the listing has made exactly P + 1
    requests, for pages 1 to P + 1, whatever the schedule. *)
Theorem requests_count (w : World) (self : GitHubRepoSync)
    (pages : list (list Repo)) (sched : list choice) :
  serves w self 1 pages ->
  (forall page acc, main (run w self sched (init self)) <> Listing page acc) ->
  filter (fun e => is_get e = true) (trace (run w self sched (init self)))
  = EvGet <$> seq 1 (S (length pages)).
Proof.
  intros Hs Hnl.
  destruct (requests_ok_run w self sched) as (k & rest & Htr & Hrest & Hmain).
  destruct (main (run w self sched (init self))) as [page acc| |] eqn:Hm;
    [by destruct (Hnl page acc) | |].
  all: destruct Hmain as ([r Hr] & Hnone).
  all: assert (k = S (length pages)) as ->.
  1,3: destruct (decide (k <= length pages)) as [Hle | Hgt];
    [ unfold get_repositories in Hr;
      by rewrite (get_repositories_loop_short w self pages 1 [] k Hs Hle) in Hr
    | destruct (decide (k = S (length pages))) as [-> | Hne]; [done |];
      unfold get_repositories in Hnone;
      rewrite (get_repositories_loop_serves w self pages 1 [] (k - 1) Hs) in Hnone
        by lia; done ].
  all: rewrite Htr, filter_app.
  all: assert (Hl : filter (fun e => is_get e = true) (EvGet <$> seq 1 (S (length pages)))
                    = EvGet <$> seq 1 (S (length pages)))
         by (generalize (seq 1 (S (length pages))); intros l;
             induction l as [|x l IH]; [done |];
             rewrite fmap_cons, filter_cons_True by done; by rewrite IH).
  all: assert (Hr' : filter (fun e => is_get e = true) rest = [])
         by (clear -Hrest; induction Hrest as [|x l Hx _ IH]; [done |];
             rewrite filter_cons_False by (by rewrite Hx); done).
  all: by rewrite Hl, Hr', app_nil_r.
Qed.

Lemma requests_count_witness :
  serves Demo.world (Demo.syncer 2) 1
    [[Demo.repo_of "A"; Demo.repo_of "B"]; [Demo.repo_of "C"]] /\
  (forall page acc,
     main (run Demo.world (Demo.syncer 2) Demo.sched_midway (init (Demo.syncer 2)))
     <> Listing page acc) /\
  filter (fun e => is_get e = true)
    (trace (run Demo.world (Demo.syncer 2) Demo.sched_midway (init (Demo.syncer 2))))
  = [EvGet 1; EvGet 2; EvGet 3].
Proof.
  assert (Hs : serves Demo.world (Demo.syncer 2) 1
            [[Demo.repo_of "A"; Demo.repo_of "B"]; [Demo.repo_of "C"]]).
  { simpl. repeat split; try done; by eexists 200, "OK". }
  assert (Hnl : forall page acc,
     main (run Demo.world (Demo.syncer 2) Demo.sched_midway (init (Demo.syncer 2)))
     <> Listing page acc).
  { intros page acc.
    assert (Hm : main (run Demo.world (Demo.syncer 2) Demo.sched_midway
                         (init (Demo.syncer 2))) = Gathering) by reflexivity.
    rewrite Hm. discriminate. }
  split; [exact Hs | split; [exact Hnl |]].
  exact (requests_count _ _ _ _ Hs Hnl).
Defined.

(** * A child process that never finishes *)







(** * Every entry of [self.errors] is a failed invocation *)

(** X9.  Every message in [self.errors] belongs to a coroutine that has
    finished after its child process failed: the message reads
    ["Failed to pull NAME: DETAIL"] or ["Failed to clone NAME: DETAIL"],
    with the name of that coroutine's record, the verb of the command
    that was really started for it, and as detail the standard error of
    a child that exited with a non-zero code or the text of the
    exception raised by the invocation. *)
Theorem errors_are_failures (w : World) (self : GitHubRepoSync)
    (sched : list choice) (error_msg : string) :
  error_msg ∈ errors (run w self sched (init self)) ->
  exists i repo repo_name cmd detail,
    tasks (run w self sched (init self)) !! i
      = Some (Finished repo repo_name cmd (Logged error_msg)) /\
    repo !! "name" = Some repo_name /\
    EvSpawn i cmd ∈ trace (run w self sched (init self)) /\
    error_msg = "Failed to " +:+ (if is_pull cmd then "pull" else "clone")
                +:+ " " +:+ repo_name +:+ ": " +:+ detail /\
    ((exists returncode, returncode <> 0%Z /\ git w i cmd = Exited returncode detail) \/
     (exists e, git w i cmd = Failed e /\ detail = str e)).
Proof.
  intros Hin. pose proof (Inv_run w self sched) as HI.
  set (s := run w self sched (init self)) in *. clearbody s.
  rewrite (inv_errors _ _ _ HI) in Hin.
  apply list_elem_of_omap in Hin as (c & Hc & Hl).
  apply list_elem_of_lookup in Hc as (i & Hi).
  destruct c as [| | | |repo repo_name cmd [|m]|]; simplify_eq/=.
  pose proof (inv_task _ _ _ HI _ _ Hi) as ((Hname & _) & Hout).
  unfold outcome_ok in Hout.
  assert (Hsp : EvSpawn i cmd ∈ trace s).
  { apply (own_event_iff w self s i); [done | done |].
    eexists. split; [exact Hi |]. simpl. rewrite !elem_of_cons. eauto. }
  assert (Hverb : verb cmd = if is_pull cmd then "pull" else "clone")
    by (by destruct cmd).
  destruct (git w i cmd) as [rc err|e|] eqn:Hg; [| |done].
  - destruct (decide (rc = 0%Z)); [done |]. simplify_eq.
    unfold error_msg_of in *. rewrite Hverb in *.
    exists i, repo, repo_name, cmd, err. repeat split; eauto.
  - simplify_eq. unfold error_msg_of in *. rewrite Hverb in *.
    exists i, repo, repo_name, cmd, (str e). repeat split; eauto.
Qed.

Lemma errors_are_failures_witness :
  "Failed to pull C: fatal: unable to access remote"
    ∈ errors (run Demo.world (Demo.syncer 2) Demo.sched (init (Demo.syncer 2))) /\
  exists i repo repo_name cmd,
    tasks (run Demo.world (Demo.syncer 2) Demo.sched (init (Demo.syncer 2))) !! i
      = Some (Finished repo repo_name cmd
                (Logged "Failed to pull C: fatal: unable to access remote")) /\
    EvSpawn i cmd ∈ trace (run Demo.world (Demo.syncer 2) Demo.sched (init (Demo.syncer 2))).
Proof.
  assert (H : "Failed to pull C: fatal: unable to access remote"
    ∈ errors (run Demo.world (Demo.syncer 2) Demo.sched (init (Demo.syncer 2)))).
  { apply (bool_decide_unpack _). vm_compute. exact I. }
  split; [exact H |].
  destruct (errors_are_failures _ _ _ _ H) as (i & repo & n & cmd & d & H1 & _ & H3 & _).
  exists i, repo, n, cmd. split; [exact H1 | exact H3].
Defined.

(** * A run can always be completed *)

Section Progress.
Context (w : World) (self : GitHubRepoSync).









End Progress.



(** * What the log says about failures *)

Section Logs.
Context (w : World) (self : GitHubRepoSync).

(** What a coroutine step adds to the log and to [self.errors]. *)
Lemma sync_repository_log i s s' :
  sync_repository w self i s = Some s' ->
  main s' = main s /\
  exists l, log s' = log s ++ l /\
    (errors s' = errors s \/
     exists error_msg, errors s' = errors s ++ [error_msg] /\ (ERROR, error_msg) ∈ l).
Proof.
  unfold sync_repository, crash.
  destruct (main s) eqn:Hm; [| |done];
  (destruct (tasks s !! i) as [c|]; [|done]; intros H;
   destruct c; simpl in H; try done;
   repeat match type of H with
          | match ?x with _ => _ end = _ => destruct x eqn:?
          | (if ?x then _ else _) = _ => destruct x eqn:?
          end; simplify_eq; simpl; try (destruct (gather_exc s)); simpl;
   rewrite ?Hm; (split; [done |]);
   first [ exists []; split; [by rewrite app_nil_r | by left]
         | eexists; split; [reflexivity |];
           first [ by left
                 | right; eexists; split; [reflexivity | apply elem_of_cons; by left] ] ]).
Qed.

Lemma sync_all_repositories_log s s' :
  sync_all_repositories w self s = Some s' ->
  errors s' = errors s /\
  ((exists l, log s' = log s ++ l /\
      forall status, main s' <> Terminated status) \/
   (exists e, main s' = Terminated 1 /\
      log s' = log s ++ [(ERROR, "Failed to fetch repositories: " +:+ str e)]) \/
   (main s' = Terminated 0 /\ log s' = log s ++ summary_lines (errors s))).
Proof.
  unfold sync_all_repositories.
  destruct (main s) as [page acc| |]; [| |done].
  - destruct (get_repositories_turn w self page acc); intros [= <-]; simpl;
      (split; [done |]).
    + left. exists []. by rewrite app_nil_r.
    + left. eexists. split; [reflexivity | done].
    + right; left. by exists e.
  - destruct (gather_exc s) as [e|].
    + intros [= <-]. split; [done |]. right; left. by exists e.
    + destruct (forallb is_finished (tasks s)); intros [= <-].
      destruct (summary_frame s) as (_ & _ & _ & _ & He & _).
      split; [exact He |]. right; right. split; [done |]. apply summary_log.
Qed.

End Logs.

(** X10.  Every message in [self.errors] was written to the log at ERROR
    level when it was recorded.  A run that ends with status 0 has
    ended its log with the summary of exactly the collected messages, so
    each failure is reported twice, once during the run and once in the
    summary; a run that ends with status 1 has as its last log line
    ["Failed to fetch repositories: "] followed by an exception. *)
Theorem failures_are_logged (w : World) (self : GitHubRepoSync) (sched : list choice) :
  (forall error_msg,
      error_msg ∈ errors (run w self sched (init self)) ->
      (ERROR, error_msg) ∈ log (run w self sched (init self))) /\
  (main (run w self sched (init self)) = Terminated 0 ->
   exists before,
     log (run w self sched (init self))
       = before ++ summary_lines (errors (run w self sched (init self))) /\
     forall error_msg,
       error_msg ∈ errors (run w self sched (init self)) ->
       (ERROR, error_msg) ∈ before /\
       (ERROR, error_msg) ∈ summary_lines (errors (run w self sched (init self)))) /\
  (main (run w self sched (init self)) = Terminated 1 ->
   exists e,
     last (log (run w self sched (init self)))
     = Some (ERROR, "Failed to fetch repositories: " +:+ str e)).
Proof.
  apply (reachable_ind w self (fun s =>
    (forall error_msg, error_msg ∈ errors s -> (ERROR, error_msg) ∈ log s) /\
    (main s = Terminated 0 ->
     exists before,
       log s = before ++ summary_lines (errors s) /\
       forall error_msg, error_msg ∈ errors s ->
         (ERROR, error_msg) ∈ before /\ (ERROR, error_msg) ∈ summary_lines (errors s)) /\
    (main s = Terminated 1 ->
     exists e, last (log s)
               = Some (ERROR, "Failed to fetch repositories: " +:+ str e))));
    [| |by exists sched].
  - split; [|done]. intros m Hm. by apply elem_of_nil in Hm.
  - intros s c s' _ (Hlogged & _ & _) Hstep. destruct c as [|i]; simpl in Hstep.
    + destruct (sync_all_repositories_log w self _ _ Hstep)
        as (Herr & [(l & Hlog & Hnt) | [(e & Hm & Hlog) | (Hm & Hlog)]]);
        rewrite Herr, Hlog.
      * split; [|split].
        -- intros m Hin. apply elem_of_app. left. by apply Hlogged.
        -- intros Hm. by destruct (Hnt 0%Z).
        -- intros Hm. by destruct (Hnt 1%Z).
      * split; [|split].
        -- intros m Hin. apply elem_of_app. left. by apply Hlogged.
        -- by rewrite Hm.
        -- intros _. exists e. apply last_snoc.
      * split; [|split].
        -- intros m Hin. apply elem_of_app. left. by apply Hlogged.
        -- intros _. exists (log s). split; [done |]. intros m Hin.
           split; [by apply Hlogged |].
           unfold summary_lines. apply elem_of_app. left.
           destruct (errors s) as [|x l] eqn:E; [by apply elem_of_nil in Hin |].
           apply elem_of_cons. right.
           apply (list_elem_of_fmap_2 (fun error => (ERROR, error))). done.
        -- by rewrite Hm.
    + destruct (sync_repository_log w self _ _ _ Hstep) as (Hm & l & Hlog & Herr).
      assert (Hnt : forall status, main s' <> Terminated status).
      { intros status Hs. rewrite Hm in Hs. unfold sync_repository in Hstep.
        by rewrite Hs in Hstep. }
      rewrite Hlog. split; [|split].
      * intros m Hin. apply elem_of_app.
        destruct Herr as [Herr | (m' & Herr & Hl)]; rewrite Herr in Hin.
        -- left. by apply Hlogged.
        -- apply elem_of_app in Hin as [Hin | Hin].
           ++ left. by apply Hlogged.
           ++ apply elem_of_cons in Hin as [-> | Hin]; [by right |].
              by apply elem_of_nil in Hin.
      * intros Hs. by destruct (Hnt 0%Z).
      * intros Hs. by destruct (Hnt 1%Z).
Qed.

(** * Where the child processes run *)



(** * An organisation without repositories *)

(** X12.  If the first page is already empty, then under every schedule
    and for every size of the pool (0 included) no coroutine is ever
    created, nothing but the one request happens and [self.errors] stays
    empty; the run can only end with status 0, its log being the two
    lines ["Found 0 repositories in ORG"] and the completion line; and
    two steps of the driver do end it. *)
Theorem empty_organisation (w : World) (self : GitHubRepoSync) (sched : list choice) :
  serves_page w self 1 [] ->
  tasks (run w self sched (init self)) = [] /\
  errors (run w self sched (init self)) = [] /\
  Forall (fun e => e = EvGet 1) (trace (run w self sched (init self))) /\
  (forall status,
     main (run w self sched (init self)) = Terminated status ->
     status = 0%Z /\
     log (run w self sched (init self))
     = [(INFO, "Found 0 repositories in " +:+ org_name self);
        (INFO, "Repository synchronization completed")]) /\
  main (run w self [RunMain; RunMain] (init self)) = Terminated 0.
Proof.
  intros Hs.
  pose (s1 := with_main Gathering
                (with_tasks []
                   (logger INFO ("Found 0 repositories in " +:+ org_name self)
                      (emit (EvGet 1) (init self))))).
  pose (s2 := with_main (Terminated 0) (summary s1)).
  assert (H1 : sync_all_repositories w self (init self) = Some s1).
  { unfold sync_all_repositories. simpl.
    by rewrite (turn_served_empty w self 1 [] Hs). }
  assert (H2 : sync_all_repositories w self s1 = Some s2) by done.
  assert (Hreach : forall s, reachable w self s ->
            s = init self \/ s = s1 \/ s = s2).
  { apply reachable_ind; [by left |].
    intros s c s' _ [-> | [-> | ->]] Hstep; destruct c as [|i]; simpl in Hstep;
      try done.
    - rewrite H1 in Hstep. simplify_eq. by right; left.
    - rewrite H2 in Hstep. simplify_eq. by right; right. }
  split; [|split; [|split; [|split]]].
  5: { assert (E1 : exec w self (init self) RunMain = s1)
         by (unfold exec, step; by rewrite H1).
       assert (E2 : exec w self s1 RunMain = s2)
         by (unfold exec, step; by rewrite H2).
       by rewrite !run_cons, E1, E2. }
  all: destruct (Hreach (run w self sched (init self))) as [-> | [-> | ->]];
    [by exists sched | | |]; try done.
  - by repeat constructor.
  - by repeat constructor.
  - intros status [= <-]. done.
Qed.

Lemma empty_organisation_witness :
  serves_page Demo.world_empty (Demo.syncer 0) 1 [] /\
  main (run Demo.world_empty (Demo.syncer 0) [RunMain; RunMain] (init (Demo.syncer 0)))
  = Terminated 0.
Proof.
  assert (Hs : serves_page Demo.world_empty (Demo.syncer 0) 1 [])
    by (by exists 200, "OK").
  split; [exact Hs |].
  exact (proj2 (proj2 (proj2 (proj2
    (empty_organisation Demo.world_empty (Demo.syncer 0) [] Hs))))).
Defined.

(** * Witnesses for the facts about the exit status *)

Lemma listing_failure_is_fatal_witness :
  listing_fails Demo.world_denied (Demo.syncer 10) /\
  exists n,
    main (run Demo.world_denied (Demo.syncer 10) (replicate n RunMain)
            (init (Demo.syncer 10))) = Terminated 1.
Proof.
  assert (Hf : listing_fails Demo.world_denied (Demo.syncer 10)).
  { exists 1. eexists. vm_compute. reflexivity. }
  split; [exact Hf |].
  exact (proj2 (listing_failure_is_fatal Demo.world_denied (Demo.syncer 10) Hf)).
Defined.


(** * Every served record gets a coroutine *)

(** X13.  If the endpoint serves the pages [pages] and then an empty
    page, then in every state past the listing the records of the
    coroutines are a permutation of all served records, with their
    multiplicities: as many coroutines as records, and a record that the
    endpoint serves n times is given n coroutines (the lister removes
    no duplicate). *)
Theorem every_record_dispatched (w : World) (self : GitHubRepoSync)
    (pages : list (list Repo)) (sched : list choice) :
  serves w self 1 pages ->
  (forall page acc, main (run w self sched (init self)) <> Listing page acc) ->
  task_repo <$> tasks (run w self sched (init self)) ≡ₚ concat pages /\
  length (tasks (run w self sched (init self))) = length (concat pages) /\
  forall r,
    length (filter (fun x => x = r) (task_repo <$> tasks (run w self sched (init self))))
    = length (filter (fun x => x = r) (concat pages)).
Proof.
  intros Hs Hnl.
  assert (Hret : listing_returns w self (concat pages)).
  { exists (S (length pages)). unfold get_repositories.
    by rewrite (get_repositories_loop_serves w self pages 1 [] _ Hs) by lia. }
  pose proof (listed_batch w self _ _ (Inv_run w self sched) Hret Hnl) as Hb.
  assert (Hp : task_repo <$> tasks (run w self sched (init self)) ≡ₚ concat pages).
  { rewrite Hb. apply shuffle_perm. }
  split; [done |]. split.
  - rewrite <- Hp. by rewrite length_fmap.
  - intros r. by rewrite Hp.
Qed.

Lemma every_record_dispatched_witness :
  serves Demo.world (Demo.syncer 2) 1
    [[Demo.repo_of "A"; Demo.repo_of "B"]; [Demo.repo_of "C"]] /\
  (forall page acc,
     main (run Demo.world (Demo.syncer 2) Demo.sched_midway (init (Demo.syncer 2)))
     <> Listing page acc) /\
  length (tasks (run Demo.world (Demo.syncer 2) Demo.sched_midway (init (Demo.syncer 2))))
  = 3.
Proof.
  assert (Hs : serves Demo.world (Demo.syncer 2) 1
            [[Demo.repo_of "A"; Demo.repo_of "B"]; [Demo.repo_of "C"]]).
  { simpl. repeat split; try done; by eexists 200, "OK". }
  assert (Hnl : forall page acc,
     main (run Demo.world (Demo.syncer 2) Demo.sched_midway (init (Demo.syncer 2)))
     <> Listing page acc).
  { intros page acc.
    assert (Hm : main (run Demo.world (Demo.syncer 2) Demo.sched_midway
                         (init (Demo.syncer 2))) = Gathering) by reflexivity.
    rewrite Hm. discriminate. }
  split; [exact Hs | split; [exact Hnl |]].
  exact (proj1 (proj2 (every_record_dispatched _ _ _ _ Hs Hnl))).
Defined.
